(** * RT_SYCL path tracer: nearest-hit scan, path integrator, pixel kernel,
      box construction and image encoding.

    Shallow embedding of [src/RT_SYCL/main.cpp] and [src/RT_SYCL/box.hpp].

    Numbers.  [real_t] quantities are modelled by the mathematical reals
    [R]: the development is about the real-valued program, rounding is not
    modelled.  The one non-finite value the program uses, the constant
    [infinity] passed as the upper bound of a scan, is modelled by the
    extra constructor of [bound_t].

    Absent headers.  [vec3.hpp], [ray.hpp], [hitable.hpp], [rectangle.hpp]
    and [rtweekend.hpp] are not part of the sources at hand.  The
    intersection tests of the primitives and the material scattering enter
    as interfaces (type classes and section variables); where a concrete
    behaviour is needed it is modelled from the specification and marked
    so. *)

From Stdlib Require Import Reals Lra Lia List ZArith Permutation.
From Stdlib Require Strings.String.
Import String.StringSyntax.
Delimit Scope string_scope with string.
From stdpp Require Import base list.
Import ListNotations.

Open Scope R_scope.

(* ================================================================== *)
(** * Part I: the program *)
(* ================================================================== *)

(** ** Vectors and rays *)

(** Modelled from the spec: [vec3] ([vec3.hpp] is absent), three
    real-valued components with value-type arithmetic. *)
Record vec3 : Type := mk_vec3 { x : R; y : R; z : R }.

Definition point : Type := vec3.
Definition point3 : Type := vec3.

(** Modelled from the spec: the arithmetic of [vec3] that the sources
    use: sum, difference, componentwise product, product and quotient by
    a scalar, dot and cross product, length and normalisation. *)
Definition vadd (a b : vec3) : vec3 :=
  mk_vec3 (x a + x b) (y a + y b) (z a + z b).
Definition vsub (a b : vec3) : vec3 :=
  mk_vec3 (x a - x b) (y a - y b) (z a - z b).
(** Componentwise product, [vec3 * vec3]. *)
Definition vmul (a b : vec3) : vec3 :=
  mk_vec3 (x a * x b) (y a * y b) (z a * z b).
(** [real_t * vec3]. *)
Definition vscale (k : R) (a : vec3) : vec3 :=
  mk_vec3 (k * x a) (k * y a) (k * z a).
(** [vec3 / real_t]. *)
Definition vdiv (a : vec3) (k : R) : vec3 :=
  mk_vec3 (x a / k) (y a / k) (z a / k).
Definition dot (a b : vec3) : R := x a * x b + y a * y b + z a * z b.
Definition cross (a b : vec3) : vec3 :=
  mk_vec3 (y a * z b - z a * y b)
          (z a * x b - x a * z b)
          (x a * y b - y a * x b).
Definition length3 (a : vec3) : R := sqrt (dot a a).
Definition unit_vector (a : vec3) : vec3 := vdiv a (length3 a).

Declare Scope vec3_scope.
Delimit Scope vec3_scope with V.
Bind Scope vec3_scope with vec3.
Infix "+" := vadd : vec3_scope.
Infix "-" := vsub : vec3_scope.
Infix "*" := vmul : vec3_scope.
Infix "*^" := vscale (at level 40, left associativity) : vec3_scope.
Infix "/^" := vdiv (at level 40, left associativity) : vec3_scope.

(** Modelled from the spec: [ray] ([ray.hpp] is absent), an origin and a
    direction; the point at parameter [s] is [origin + s * direction]. *)
Record ray : Type := mk_ray { origin : point3; direction : vec3 }.

Definition ray_at (r : ray) (s : R) : point3 :=
  (origin r + s *^ direction r)%V.

(** ** Scan bounds *)

(** The upper bound of a scan is a [real_t] that may be the constant
    [infinity] ([color] passes it); every other quantity is finite. *)
Inductive bound_t : Type :=
| Finite (v : R)
| infinity.

Definition lt_bound (a : R) (b : bound_t) : Prop :=
  match b with
  | Finite v => a < v
  | infinity => True
  end.

Definition le_bound (a b : bound_t) : Prop :=
  match a, b with
  | _, infinity => True
  | Finite u, Finite v => u <= v
  | infinity, Finite _ => False
  end.

Definition lt_bound_dec (a : R) (b : bound_t) : {lt_bound a b} + {~ lt_bound a b} :=
  match b as b0 return {lt_bound a b0} + {~ lt_bound a b0} with
  | Finite v => Rlt_dec a v
  | infinity => left I
  end.

(** ** Materials and hit records *)

(** Modelled from the spec: [material_t] ([hitable.hpp] is absent), with
    the two kinds that [main.cpp] names. *)
Inductive material_t : Type :=
| Lambertian
| Metal.

(** Modelled from the spec: [hit_record] ([hitable.hpp] is absent): point
    of intersection, surface normal, parametric distance and material
    reference. *)
Record hit_record : Type := mk_hit_record {
  p : point3;
  normal : vec3;
  t : R;
  rec_material : material_t
}.

(** ** Interfaces of the primitives *)

(** [hitable::hit(r, min, max, rec)]: the result and the content of [rec]
    after the call, as a function of its content before the call. *)
Class Hitable (A : Type) : Type :=
  hit : A -> ray -> R -> bound_t -> hit_record -> bool * hit_record.

(** The five-argument [hit(r, min, max, rec, material)] of the rectangles
    that [box::hit] calls. *)
Class RectHitable (A : Type) : Type :=
  rect_hit : A -> ray -> R -> bound_t -> hit_record -> material_t ->
             bool * hit_record * material_t.

(** ** [render_kernel::hit_world] (main.cpp, lines 67-81) *)

Section HitWorld.
Context {hitable : Type} `{Hitable hitable}.

(** The loop, one list element per array cell [spheres[i]]; the
    arguments after the list are the locals [temp_rec], [hit_anything],
    [closest_so_far] and the output parameter [rec]. *)
Fixpoint hit_world_loop (r : ray) (min : R) (spheres : list hitable)
    (temp_rec : hit_record) (hit_anything : bool)
    (closest_so_far : bound_t) (rec : hit_record) : bool * hit_record :=
  match spheres with
  | [] => (hit_anything, rec)
  | s :: rest =>
      let '(h, temp_rec') := hit s r min closest_so_far temp_rec in
      if h
      then hit_world_loop r min rest temp_rec' true
                          (Finite (t temp_rec')) temp_rec'
      else hit_world_loop r min rest temp_rec' hit_anything
                          closest_so_far rec
  end.

(** [temp0] is the content of the local [temp_rec] at its declaration.
    The result pairs the returned flag with the final content of
    [rec]. *)
Definition hit_world (temp0 : hit_record) (r : ray) (min : R)
    (max : bound_t) (rec : hit_record) (spheres : list hitable)
    : bool * hit_record :=
  hit_world_loop r min spheres temp0 false max rec.
End HitWorld.

(** ** [box] (box.hpp) *)

(** Modelled from the spec: the three axis-aligned rectangle types
    ([rectangle.hpp] is absent), with the constructor arguments in the
    order [box::box] passes them: two in-plane ranges, the fixed
    coordinate, the material. *)
Record xy_rect : Type := mk_xy_rect {
  xy_x0 : R; xy_x1 : R; xy_y0 : R; xy_y1 : R; xy_k : R; xy_mat : material_t }.
Record xz_rect : Type := mk_xz_rect {
  xz_x0 : R; xz_x1 : R; xz_z0 : R; xz_z1 : R; xz_k : R; xz_mat : material_t }.
Record yz_rect : Type := mk_yz_rect {
  yz_y0 : R; yz_y1 : R; yz_z0 : R; yz_z1 : R; yz_k : R; yz_mat : material_t }.

(** Modelled from the spec: [rectangle_t] ([rectangle.hpp] is absent),
    the variant over the three rectangle types that [box::hit] visits. *)
Inductive rectangle_t : Type :=
| XY (q : xy_rect)
| XZ (q : xz_rect)
| YZ (q : yz_rect).

Record box : Type := mk_box {
  box_min : point;
  box_max : point;
  material_type : material_t;
  sides : list rectangle_t
}.

(** [box::box(p0, p1, mat_type)], lines 10-21. *)
Definition box_new (p0 p1 : point) (mat_type : material_t) : box :=
  {| box_min := p0;
     box_max := p1;
     material_type := mat_type;
     sides :=
       [ XY (mk_xy_rect (x p0) (x p1) (y p0) (y p1) (z p1) mat_type);
         XY (mk_xy_rect (x p0) (x p1) (y p0) (y p1) (z p0) mat_type);
         XZ (mk_xz_rect (x p0) (x p1) (z p0) (z p1) (y p1) mat_type);
         XZ (mk_xz_rect (x p0) (x p1) (z p0) (z p1) (y p0) mat_type);
         YZ (mk_yz_rect (y p0) (y p1) (z p0) (z p1) (x p1) mat_type);
         YZ (mk_yz_rect (y p0) (y p1) (z p0) (z p1) (x p0) mat_type) ] |}.

Section BoxHit.
Context `{RectHitable xy_rect, RectHitable xz_rect, RectHitable yz_rect}.

(** The [std::visit] of line 31. *)
Definition visit_hit (side : rectangle_t) (r : ray) (min : R)
    (max : bound_t) (rec : hit_record) (m : material_t)
    : bool * hit_record * material_t :=
  match side with
  | XY q => rect_hit q r min max rec m
  | XZ q => rect_hit q r min max rec m
  | YZ q => rect_hit q r min max rec m
  end.

(** The loop of [box::hit] over a vector of sides; after the list come
    the locals [temp_rec], [temp_material_type], [hit_anything],
    [closest_so_far] and the two output parameters. *)
Fixpoint box_hit_loop (r : ray) (min : R) (sds : list rectangle_t)
    (temp_rec : hit_record) (temp_material_type : material_t)
    (hit_anything : bool) (closest_so_far : bound_t)
    (rec : hit_record) (hit_material_type : material_t)
    : bool * hit_record * material_t :=
  match sds with
  | [] => (hit_anything, rec, hit_material_type)
  | side :: rest =>
      let '(h, temp_rec', temp_material_type') :=
        visit_hit side r min closest_so_far temp_rec temp_material_type in
      if h
      then box_hit_loop r min rest temp_rec' temp_material_type' true
                        (Finite (t temp_rec')) temp_rec' temp_material_type'
      else box_hit_loop r min rest temp_rec' temp_material_type'
                        hit_anything closest_so_far rec hit_material_type
  end.

(** [box::hit], lines 23-39.  [temp0] and [tempm0] are the contents of
    the locals [temp_rec] and [temp_material_type] at their
    declaration.  The result is the returned flag with the final
    contents of [rec] and [hit_material_type]. *)
Definition box_hit (temp0 : hit_record) (tempm0 : material_t)
    (b : box) (r : ray) (min : R) (max : bound_t)
    (rec : hit_record) (hit_material_type : material_t)
    : bool * hit_record * material_t :=
  box_hit_loop r min (sides b) temp0 tempm0 false max rec hit_material_type.
End BoxHit.

(** ** The primitives' intersection tests, modelled from the specification *)

(** [s] lies in the open interval [(tmin, tmax)]. *)
Definition inside (tmin s : R) (tmax : bound_t) : bool :=
  if Rlt_dec tmin s
  then (if lt_bound_dec s tmax then true else false)
  else false.

(** [lo <= v <= hi]. *)
Definition between (lo v hi : R) : bool :=
  if Rle_dec lo v
  then (if Rle_dec v hi then true else false)
  else false.

Section Rectangles.
(** The threshold under which a denominator counts as near zero; the
    specification leaves its value open. *)
Variable eps : R.

(** Modelled from the spec: [xy_rect::hit] ([rectangle.hpp] is absent).
    The ray is intersected with the plane [z = k]; it is rejected when
    parallel to the plane (denominator of magnitude at most [eps]), when
    the parameter is outside [(min, max)], and when the in-plane
    coordinates fall outside the two ranges.  The normal is the fixed
    axis. *)
Definition xy_rect_hit (q : xy_rect) (r : ray) (min : R) (max : bound_t)
    (rec : hit_record) (m : material_t) : bool * hit_record * material_t :=
  let d := z (direction r) in
  if Rle_dec (Rabs d) eps then (false, rec, m) else
  let s := (xy_k q - z (origin r)) / d in
  if negb (inside min s max) then (false, rec, m) else
  let hx := x (origin r) + s * x (direction r) in
  let hy := y (origin r) + s * y (direction r) in
  if between (xy_x0 q) hx (xy_x1 q) && between (xy_y0 q) hy (xy_y1 q)
  then (true,
        {| p := ray_at r s; normal := mk_vec3 0 0 1; t := s;
           rec_material := xy_mat q |},
        xy_mat q)
  else (false, rec, m).

(** Modelled from the spec: [xz_rect::hit], the plane [y = k]. *)
Definition xz_rect_hit (q : xz_rect) (r : ray) (min : R) (max : bound_t)
    (rec : hit_record) (m : material_t) : bool * hit_record * material_t :=
  let d := y (direction r) in
  if Rle_dec (Rabs d) eps then (false, rec, m) else
  let s := (xz_k q - y (origin r)) / d in
  if negb (inside min s max) then (false, rec, m) else
  let hx := x (origin r) + s * x (direction r) in
  let hz := z (origin r) + s * z (direction r) in
  if between (xz_x0 q) hx (xz_x1 q) && between (xz_z0 q) hz (xz_z1 q)
  then (true,
        {| p := ray_at r s; normal := mk_vec3 0 1 0; t := s;
           rec_material := xz_mat q |},
        xz_mat q)
  else (false, rec, m).

(** Modelled from the spec: [yz_rect::hit], the plane [x = k]. *)
Definition yz_rect_hit (q : yz_rect) (r : ray) (min : R) (max : bound_t)
    (rec : hit_record) (m : material_t) : bool * hit_record * material_t :=
  let d := x (direction r) in
  if Rle_dec (Rabs d) eps then (false, rec, m) else
  let s := (yz_k q - x (origin r)) / d in
  if negb (inside min s max) then (false, rec, m) else
  let hy := y (origin r) + s * y (direction r) in
  let hz := z (origin r) + s * z (direction r) in
  if between (yz_y0 q) hy (yz_y1 q) && between (yz_z0 q) hz (yz_z1 q)
  then (true,
        {| p := ray_at r s; normal := mk_vec3 1 0 0; t := s;
           rec_material := yz_mat q |},
        yz_mat q)
  else (false, rec, m).
End Rectangles.

(** Modelled from the spec: [sphere] ([hitable.hpp] is absent), a centre,
    a radius and a material. *)
Record sphere : Type := mk_sphere {
  center : point3;
  radius : R;
  sphere_material : material_t
}.

(** Modelled from the spec: the record a sphere produces for the root
    [s]: the point on the ray, the unit normal turned against the
    incoming ray, the distance and the material. *)
Definition sphere_record (sp : sphere) (r : ray) (s : R) : hit_record :=
  let outward := ((ray_at r s - center sp) /^ radius sp)%V in
  {| p := ray_at r s;
     normal := if Rlt_dec 0 (dot (direction r) outward)
               then ((-1) *^ outward)%V else outward;
     t := s;
     rec_material := sphere_material sp |}.

(** Modelled from the spec: [sphere::hit].  The quadratic
    [a s^2 + 2 half_b s + c = 0] of the ray against the sphere is solved;
    there is no hit when the discriminant is negative; otherwise the
    smallest root in [(min, max)] is returned, and there is no hit when
    both roots are outside. *)
Definition sphere_hit (sp : sphere) (r : ray) (min : R) (max : bound_t)
    (rec : hit_record) : bool * hit_record :=
  let oc := (origin r - center sp)%V in
  let a := dot (direction r) (direction r) in
  let half_b := dot oc (direction r) in
  let c := dot oc oc - radius sp * radius sp in
  let discriminant := half_b * half_b - a * c in
  if Rlt_dec discriminant 0 then (false, rec) else
  let root1 := (- half_b - sqrt discriminant) / a in
  let root2 := (- half_b + sqrt discriminant) / a in
  if inside min root1 max then (true, sphere_record sp r root1)
  else if inside min root2 max then (true, sphere_record sp r root2)
  else (false, rec).

(** ** The contract of an intersection test *)

(** What the specification asks of every primitive, for a fixed ray and
    lower bound: the test [q], as a function of the upper bound and of the
    record it is handed, returns the primitive's nearest intersection
    inside the open interval.  In three parts: an accepted hit lies in the
    interval; it is still the answer when the upper bound shrinks but
    stays above it, whatever record is handed in; and when the upper bound
    grows, the answer can only get nearer. *)
Definition interval_consistent {O : Type} (t_of : O -> R) (min : R)
    (q : bound_t -> O -> bool * O) : Prop :=
  (forall c tmp o, q c tmp = (true, o) ->
     min < t_of o /\ lt_bound (t_of o) c)
  /\ (forall c c' tmp tmp' o, q c tmp = (true, o) ->
        le_bound c' c -> lt_bound (t_of o) c' -> q c' tmp' = (true, o))
  /\ (forall c c' tmp o', le_bound c' c -> q c' tmp = (true, o') ->
        exists o, q c tmp = (true, o) /\ t_of o <= t_of o').

(** The test of a sphere-like primitive for a fixed ray and lower bound. *)
Definition hit_query {A : Type} `{Hitable A} (r : ray) (min : R) (s : A)
    : bound_t -> hit_record -> bool * hit_record :=
  fun c tmp => hit s r min c tmp.

(** The test of a box side, with record and material paired. *)
Definition side_query `{RectHitable xy_rect, RectHitable xz_rect,
                        RectHitable yz_rect}
    (r : ray) (min : R) (side : rectangle_t)
    : bound_t -> hit_record * material_t -> bool * (hit_record * material_t) :=
  fun c tmp =>
    let '(h, rec, m) := visit_hit side r min c (fst tmp) (snd tmp) in
    (h, (rec, m)).

(** The generic nearest-hit scan both loops are instances of. *)
Section Scan.
Context {P O : Type}.
Variable query : P -> bound_t -> O -> bool * O.
Variable t_of : O -> R.

Fixpoint scan_loop (ps : list P) (tmp : O) (hit_anything : bool)
    (closest_so_far : bound_t) (out : O) : bool * O :=
  match ps with
  | [] => (hit_anything, out)
  | q :: rest =>
      let '(h, tmp') := query q closest_so_far tmp in
      if h
      then scan_loop rest tmp' true (Finite (t_of tmp')) tmp'
      else scan_loop rest tmp' hit_anything closest_so_far out
  end.

(** Primitive [q] reports [o] in the full interval. *)
Definition reports (max : bound_t) (q : P) (o : O) : Prop :=
  exists tmp, query q max tmp = (true, o).

(** No two members report different records at the same distance. *)
Definition tie_free (max : bound_t) (ps : list P) : Prop :=
  forall q q' o o', In q ps -> In q' ps ->
    reports max q o -> reports max q' o' ->
    t_of o = t_of o' -> o = o'.
End Scan.

(** ** What "the nearest hit" means for the two scans *)

(** [hit_world] reports a hit exactly when some sphere reports one in
    [(min, max)]; the record it returns is then the report of one of the
    spheres, inside the interval, and no sphere reports anything
    nearer. *)
Definition hit_world_nearest `{Hitable hitable} (temp0 : hit_record)
    (r : ray) (min : R) (max : bound_t) (rec0 : hit_record)
    (spheres : list hitable) : Prop :=
  let res := hit_world temp0 r min max rec0 spheres in
  (fst res = true <->
     exists s tmp, In s spheres /\ fst (hit s r min max tmp) = true)
  /\ (fst res = true ->
        (min < t (snd res) /\ lt_bound (t (snd res)) max)
        /\ (exists s tmp, In s spheres
              /\ hit s r min max tmp = (true, snd res))
        /\ forall s tmp o, In s spheres ->
             hit s r min max tmp = (true, o) -> t (snd res) <= t o).

(** The same for [box::hit], whose output is a record and a material. *)
Definition box_hit_nearest `{RectHitable xy_rect, RectHitable xz_rect,
                             RectHitable yz_rect}
    (temp0 : hit_record) (tempm0 : material_t) (b : box)
    (r : ray) (min : R) (max : bound_t) (rec0 : hit_record)
    (m0 : material_t) : Prop :=
  let res := box_hit temp0 tempm0 b r min max rec0 m0 in
  (fst (fst res) = true <->
     exists side tr tm, In side (sides b)
       /\ fst (fst (visit_hit side r min max tr tm)) = true)
  /\ (fst (fst res) = true ->
        (min < t (snd (fst res)) /\ lt_bound (t (snd (fst res))) max)
        /\ (exists side tr tm, In side (sides b)
              /\ visit_hit side r min max tr tm = res)
        /\ forall side tr tm o m, In side (sides b) ->
             visit_hit side r min max tr tm = (true, o, m) ->
             t (snd (fst res)) <= t o).

(** ** The scans over the modelled primitives, and test scenes *)

(** [hit_world] over modelled spheres. *)
Definition sphere_hit_world : hit_record -> ray -> R -> bound_t ->
    hit_record -> list sphere -> bool * hit_record :=
  @hit_world sphere sphere_hit.

(** [box::hit] over modelled rectangles that reject exactly the parallel
    rays (threshold zero). *)
Definition rect_box_hit : hit_record -> material_t -> box -> ray -> R ->
    bound_t -> hit_record -> material_t -> bool * hit_record * material_t :=
  @box_hit (xy_rect_hit 0) (xz_rect_hit 0) (yz_rect_hit 0).

Definition zero3 : vec3 := mk_vec3 0 0 0.

(** A record standing for whatever a caller's record holds before a
    scan. *)
Definition blank_record : hit_record := mk_hit_record zero3 zero3 0 Lambertian.

(** Two unit spheres on the negative z axis, the farther one first, and a
    ray from the origin down that axis. *)
Definition far_sphere : sphere := mk_sphere (mk_vec3 0 0 (-5)) 1 Lambertian.
Definition near_sphere : sphere := mk_sphere (mk_vec3 0 0 (-2)) 1 Metal.
Definition down_ray : ray := mk_ray zero3 (mk_vec3 0 0 (-1)).

(** A sphere with the geometry of [near_sphere] and another material. *)
Definition near_sphere_twin : sphere :=
  mk_sphere (mk_vec3 0 0 (-2)) 1 Lambertian.

(** A unit sphere beside the z axis, which [down_ray] misses. *)
Definition side_sphere : sphere := mk_sphere (mk_vec3 5 0 0) 1 Lambertian.

(** A ray that leaves the origin straight up and misses both spheres. *)
Definition up_ray : ray := mk_ray zero3 (mk_vec3 0 1 0).

(** The unit box, and a ray that meets it on the edge shared by the faces
    [z = 1] and [y = 1]. *)
Definition unit_box : box := box_new zero3 (mk_vec3 1 1 1) Metal.
Definition edge_ray : ray := mk_ray (mk_vec3 (1/2) 2 2) (mk_vec3 0 (-1) (-1)).

(** The unit box with its side [y = 1] moved to the front of the vector
    of sides. *)
Definition unit_box_reordered : box :=
  {| box_min := box_min unit_box;
     box_max := box_max unit_box;
     material_type := material_type unit_box;
     sides :=
       [ XZ (mk_xz_rect 0 1 0 1 1 Metal);
         XY (mk_xy_rect 0 1 0 1 1 Metal);
         XY (mk_xy_rect 0 1 0 1 0 Metal);
         XZ (mk_xz_rect 0 1 0 1 0 Metal);
         YZ (mk_yz_rect 0 1 0 1 1 Metal);
         YZ (mk_yz_rect 0 1 0 1 0 Metal) ] |}.

(** A ray that starts above the unit box and moves away from it. *)
Definition away_ray : ray := mk_ray (mk_vec3 5 5 5) (mk_vec3 0 1 0).

(** ** Random draws: a state monad over the generator *)

(** The program draws random numbers from a global generator; the draws
    are made explicit by threading the generator state, of type [G]. *)
Definition Rand (G A : Type) : Type := G -> A * G.

Definition ret {G A : Type} (a : A) : Rand G A := fun g => (a, g).

Definition bind {G A B : Type} (m : Rand G A) (k : A -> Rand G B)
    : Rand G B :=
  fun g => let '(a, g') := m g in k a g'.

Declare Scope rand_scope.
Delimit Scope rand_scope with rand.
Notation "x <- m ;; k" := (bind m (fun x => k))
  (at level 100, m at next level, right associativity) : rand_scope.

(** ** [render_kernel::color] (main.cpp, lines 83-108) *)

Definition black : vec3 := mk_vec3 0 0 0.
Definition white : vec3 := mk_vec3 1 1 1.
Definition sky_blue : vec3 := mk_vec3 (1/2) (7/10) 1.

Section Integrator.
Context {rng : Type}.
Context {hitable : Type} `{Hitable hitable}.

(** [hit_record::scatter_material(r_in, attenuation, scattered)]
    ([hitable.hpp] is absent), as [color] calls it: the flag it returns
    with the contents of the references [attenuation] and [scattered]
    after the call, as a function of their contents before the call; it
    may draw random numbers. *)
Variable scatter_material :
  hit_record -> ray -> vec3 -> ray -> Rand rng (bool * vec3 * ray).

(** The contents of the locals that the program declares without
    initialising them: the records [rec] and [temp_rec], the ray
    [scattered]. *)
Variable uninit_rec : hit_record.
Variable uninit_ray : ray.

(** The loop of [color]; [n] counts the iterations that remain, the other
    arguments are the locals [cur_ray], [cur_attenuation] and
    [scattered]. *)
Fixpoint color_loop (spheres : list hitable) (n : nat) (cur_ray : ray)
    (cur_attenuation : vec3) (scattered : ray) : Rand rng vec3 :=
  match n with
  | O => ret (mk_vec3 0 0 0)
  | S n' =>
      let '(h, rec) :=
        hit_world uninit_rec cur_ray (1/1000) infinity uninit_rec spheres in
      if h
      then
        (res <- scatter_material rec cur_ray cur_attenuation scattered ;;
         let '(ok, cur_attenuation', scattered') := res in
         if ok
         then color_loop spheres n' scattered' cur_attenuation' scattered'
         else ret (mk_vec3 0 0 0))%rand
      else
        let unit_direction := unit_vector (direction cur_ray) in
        let hit_pt := 1/2 * (y unit_direction + 1) in
        let c := ((1 - hit_pt) *^ mk_vec3 1 1 1
                  + hit_pt *^ mk_vec3 (1/2) (7/10) 1)%V in
        ret (cur_attenuation * c)%V
  end.

(** [color(r, spheres, max_depth)]; a [max_depth] that is not positive
    gives no iteration. *)
Definition color (r : ray) (spheres : list hitable) (max_depth : Z)
    : Rand rng vec3 :=
  color_loop spheres (Z.to_nat max_depth) r (mk_vec3 1 1 1) uninit_ray.

(** Every one of the next [n] iterations finds a hit and
    [scatter_material] returns true on it. *)
Fixpoint bounces (spheres : list hitable) (n : nat) (r : ray) (a : vec3)
    (sc : ray) (g : rng) : Prop :=
  match n with
  | O => True
  | S n' =>
      exists rec a' s g',
        hit_world uninit_rec r (1/1000) infinity uninit_rec spheres
          = (true, rec)
        /\ scatter_material rec r a sc g = ((true, a', s), g')
        /\ bounces spheres n' s a' s g'
  end.
End Integrator.

(** *** The integrator in the words of the specification *)

(** The background: white and sky blue blended linearly by
    [h = (d + 1) / 2], [d] the y component of the normalised direction. *)
Definition gradient (d : R) : vec3 :=
  let h := 1/2 * (d + 1) in
  ((1 - h) *^ white + h *^ sky_blue)%V.

Definition background (r : ray) : vec3 :=
  gradient (y (unit_vector (direction r))).

Section IntegratorSpec.
Context {rng : Type}.
Context {hitable : Type} `{Hitable hitable}.

(** Modelled from the spec: the material's scattering rule, with the
    signature of the specification: from the hit record and the incoming
    ray, either an attenuation and a scattered ray, or nothing when the
    ray is absorbed; it may draw random numbers. *)
Variable scatter : hit_record -> ray -> Rand rng (option (vec3 * ray)).

Variable uninit_rec : hit_record.

(** Modelled from the spec: [hit_record::scatter_material]
    ([hitable.hpp] is absent).  [color] hands it the running attenuation
    by reference: on scattering the running attenuation is multiplied by
    the material's attenuation and [scattered] receives the new ray; on
    absorption both are left as they were. *)
Definition scatter_material_of (rec : hit_record) (r_in : ray)
    (attenuation : vec3) (scattered : ray) : Rand rng (bool * vec3 * ray) :=
  (res <- scatter rec r_in ;;
   match res with
   | Some (a, s) => ret (true, (attenuation * a)%V, s)
   | None => ret (false, attenuation, scattered)
   end)%rand.

(** The integrator as a relation: [path spheres n k r a g res g'] says
    that with [n] iterations allowed, current ray [r], running
    attenuation [a] and generator state [g], the path ends after [k]
    scans with colour [res] and generator state [g'].  Every scan is
    over [(0.001, +infinity)]. *)
Inductive path (spheres : list hitable)
    : nat -> nat -> ray -> vec3 -> rng -> vec3 -> rng -> Prop :=
| path_exhausted r a g :
    path spheres 0 0 r a g black g
| path_escaped n r a g :
    fst (hit_world uninit_rec r (1/1000) infinity uninit_rec spheres)
      = false ->
    path spheres (S n) 1 r a g (a * background r)%V g
| path_absorbed n r a g rec g' :
    hit_world uninit_rec r (1/1000) infinity uninit_rec spheres
      = (true, rec) ->
    scatter rec r g = (None, g') ->
    path spheres (S n) 1 r a g black g'
| path_scattered n k r a g rec att s g' res g'' :
    hit_world uninit_rec r (1/1000) infinity uninit_rec spheres
      = (true, rec) ->
    scatter rec r g = (Some (att, s), g') ->
    path spheres n k s (a * att)%V g' res g'' ->
    path spheres (S n) (S k) r a g res g''.
End IntegratorSpec.

(** ** [render_kernel::get_ray] and [render_kernel::operator()] *)

(** Modelled from the spec: [degrees_to_radians] ([rtweekend.hpp] is
    absent). *)
Definition degrees_to_radians (deg : R) : R := deg * PI / 180.

Section Kernel.
Context {rng : Type}.
Context {hitable : Type} `{Hitable hitable}.
Variable scatter_material :
  hit_record -> ray -> vec3 -> ray -> Rand rng (bool * vec3 * ray).
Variable uninit_rec : hit_record.
Variable uninit_ray : ray.

(** The two random helpers of [rtweekend.hpp] (absent) that the kernel
    calls. *)
Variable random_double : Rand rng R.
Variable random_in_unit_disk : Rand rng vec3.

(** The template arguments of [render_kernel]. *)
Variables (width height samples : nat) (depth : Z).

(** [get_ray(s, t)], lines 111-140.  The members [origin], [horizontal],
    [vertical] and [lower_left_corner] are assigned before they are read,
    on every call, so they are locals here. *)
Definition get_ray (s t : R) : Rand rng ray :=
  let theta := degrees_to_radians 20 in
  let h := tan (theta / 2) in
  let aspect_ratio := 16 / 9 in
  let viewport_height := 2 * h in
  let viewport_width := aspect_ratio * viewport_height in
  let look_from := mk_vec3 13 2 3 in
  let focus_dist := 10 in
  let w := unit_vector (look_from - mk_vec3 0 0 0)%V in
  let u := unit_vector (cross (mk_vec3 0 1 0) w) in
  let v := cross w u in
  let origin := look_from in
  let horizontal := ((focus_dist * viewport_width) *^ u)%V in
  let vertical := ((focus_dist * viewport_height) *^ v)%V in
  let lower_left_corner :=
    (origin - horizontal /^ 2 - vertical /^ 2 - focus_dist *^ w)%V in
  let lens_radius := (1/10) / 2 in
  (d <- random_in_unit_disk ;;
   let rd := (lens_radius *^ d)%V in
   let offset := (x rd *^ u + y rd *^ v)%V in
   ret (mk_ray (origin + offset)%V
               (lower_left_corner + s *^ horizontal + t *^ vertical
                - origin - offset)%V))%rand.

(** The sampling loop of [operator()], lines 47-53; [n] counts the
    samples that remain. *)
Fixpoint sample_loop (spheres : list hitable) (n : nat)
    (x_coord y_coord : nat) (final_color : vec3) : Rand rng vec3 :=
  match n with
  | O => ret final_color
  | S n' =>
      (ju <- random_double ;;
       let u := (INR x_coord + ju) / INR width in
       jv <- random_double ;;
       let v := (INR y_coord + jv) / INR height in
       r <- get_ray u v ;;
       c <- color scatter_material uninit_rec uninit_ray r spheres depth ;;
       sample_loop spheres n' x_coord y_coord (final_color + c)%V)%rand
  end.

(** [operator()(item)], lines 37-58, for the item with global id
    [(x_coord, y_coord)]; the frame buffer is a list of cells and the
    result is the buffer after the write.  The index space of the launch
    keeps [x_coord < width] and [y_coord < height], so the index is in
    range. *)
Definition render_pixel (spheres : list hitable) (x_coord y_coord : nat)
    (frame : list vec3) : Rand rng (list vec3) :=
  let pixel_index := (y_coord * width + x_coord)%nat in
  (final_color <- sample_loop spheres samples x_coord y_coord
                              (mk_vec3 0 0 0) ;;
   let final_color := (final_color /^ INR samples)%V in
   ret (<[pixel_index := final_color]> frame))%rand.

(** *** The pixel task in the words of the specification *)

(** The jittered viewport coordinates of one sample. *)
Definition jittered_uv (x_coord y_coord : nat) : Rand rng (R * R) :=
  (ju <- random_double ;;
   jv <- random_double ;;
   ret ((INR x_coord + ju) / INR width, (INR y_coord + jv) / INR height))
  %rand.

(** One sample: jitter, camera ray, integrated colour. *)
Definition sample_color (spheres : list hitable) (x_coord y_coord : nat)
    : Rand rng vec3 :=
  (uv <- jittered_uv x_coord y_coord ;;
   r <- get_ray (fst uv) (snd uv) ;;
   color scatter_material uninit_rec uninit_ray r spheres depth)%rand.

(** [n] successive runs of a randomised computation. *)
Fixpoint repeat_rand {A : Type} (n : nat) (m : Rand rng A)
    : Rand rng (list A) :=
  match n with
  | O => ret []
  | S n' => (a <- m ;; l <- repeat_rand n' m ;; ret (a :: l))%rand
  end.

(** The sum of a list of colours, accumulated from black in list order. *)
Definition vsum (l : list vec3) : vec3 := fold_left vadd l (mk_vec3 0 0 0).

End Kernel.

(** ** [save_image] (main.cpp, lines 172-186) *)








(** ** The geometry of a box *)

(** Modelled from the spec: the points of a rectangle, the in-plane
    ranges included. *)
Definition on_side (side : rectangle_t) (q : point) : Prop :=
  match side with
  | XY s => xy_x0 s <= x q <= xy_x1 s /\ xy_y0 s <= y q <= xy_y1 s
            /\ z q = xy_k s
  | XZ s => xz_x0 s <= x q <= xz_x1 s /\ xz_z0 s <= z q <= xz_z1 s
            /\ y q = xz_k s
  | YZ s => yz_y0 s <= y q <= yz_y1 s /\ yz_z0 s <= z q <= yz_z1 s
            /\ x q = yz_k s
  end.

Definition side_material (side : rectangle_t) : material_t :=
  match side with
  | XY s => xy_mat s
  | XZ s => xz_mat s
  | YZ s => yz_mat s
  end.

(** The closed volume between two corners, and its surface. *)
Definition in_volume (lo hi q : point) : Prop :=
  x lo <= x q <= x hi /\ y lo <= y q <= y hi /\ z lo <= z q <= z hi.

Definition on_surface (lo hi q : point) : Prop :=
  in_volume lo hi q
  /\ (x q = x lo \/ x q = x hi \/ y q = y lo \/ y q = y hi
      \/ z q = z lo \/ z q = z hi).

(** ** A test material *)

(** A scattering rule for tests: it draws nothing, halves the light and
    sends the incoming ray on again. *)
Definition half_scatter (rec : hit_record) (r_in : ray)
    : Rand unit (option (vec3 * ray)) :=
  ret (Some (mk_vec3 (1/2) (1/2) (1/2), r_in)).

Definition half_material
    : hit_record -> ray -> vec3 -> ray -> Rand unit (bool * vec3 * ray) :=
  scatter_material_of half_scatter.

(** Random helpers for tests: no jitter, the centre of the lens. *)
Definition zero_jitter : Rand unit R := ret 0.
Definition centre_disk : Rand unit vec3 := ret zero3.

(** ** Colours in the unit cube *)

(** Every component lies in [[0, 1]]. *)
Definition unit_color (c : vec3) : Prop :=
  0 <= x c <= 1 /\ 0 <= y c <= 1 /\ 0 <= z c <= 1.

(** ** The camera frame of [get_ray] *)

(** The values [get_ray] computes on every call from its constants: the
    eye [look_from], the frame [w], [u], [v] and the size of the
    viewport. *)
Definition look_from : vec3 := mk_vec3 13 2 3.
Definition camera_w : vec3 := unit_vector (look_from - mk_vec3 0 0 0)%V.
Definition camera_u : vec3 := unit_vector (cross (mk_vec3 0 1 0) camera_w).
Definition camera_v : vec3 := cross camera_w camera_u.
Definition viewport_height : R := 2 * tan (degrees_to_radians 20 / 2).
Definition viewport_width : R := 16 / 9 * viewport_height.

(** ** [render] (main.cpp, lines 148-169) *)

(** The tile sizes of [namespace constants]. *)
Definition TileX : nat := 8.
Definition TileY : nat := 8.

(** The index space of the launch: every [(x, y)] with [x < width] and
    [y < height]. *)
Definition index_space (width height : nat) : list (nat * nat) :=
  flat_map (fun y_ => map (fun x_ => (x_, y_)) (seq 0 width)) (seq 0 height).

Section Render.
Context {rng : Type}.
Context {hitable : Type} `{Hitable hitable}.
Variable scatter_material :
  hit_record -> ray -> vec3 -> ray -> Rand rng (bool * vec3 * ray).
Variable uninit_rec : hit_record.
Variable uninit_ray : ray.
Variable random_double : Rand rng R.
Variable random_in_unit_disk : Rand rng vec3.

(** The template arguments of [render]. *)
Variables (width height samples num_spheres : nat).

(** The work items of a launch run one after the other in the order
    [items], each on the frame the previous ones left and drawing from
    the one generator; the bounce count is the [depth = 5] of line 152,
    and the kernel sees the first [num_spheres] cells of the array. *)
Fixpoint run_items (spheres : list hitable) (items : list (nat * nat))
    (frame : list vec3) : Rand rng (list vec3) :=
  match items with
  | [] => ret frame
  | (x_coord, y_coord) :: rest =>
      (frame' <- render_pixel scatter_material uninit_rec uninit_ray
                   random_double random_in_unit_disk width height samples
                   5 (firstn num_spheres spheres) x_coord y_coord frame ;;
       run_items spheres rest frame')%rand
  end.

(** [render(queue, fb_data, spheres)] for one order of execution of the
    work items.  [parallel_for] fixes no order: [schedule] is any
    arrangement of the index space.  The launch needs the tile sizes to
    divide the frame, and the array to hold [num_spheres] spheres. *)
Definition render (schedule : list (nat * nat)) (fb_data : list vec3)
    (spheres : list hitable) : Rand rng (list vec3) :=
  run_items spheres schedule fb_data.

(** Cell [j] is the cell of one of the items. *)
Definition written (items : list (nat * nat)) (j : nat) : Prop :=
  exists x_ y_, In (x_, y_) items /\ j = (y_ * width + x_)%nat.
End Render.

(** ** The scene [main] builds (main.cpp, lines 196-229) *)

(** Modelled from the spec: [Texture] ([texture.hpp] is absent), with the
    two constructors [main] calls, kept as data. *)
Inductive Texture : Type :=
| checker_texture (c1 c2 : vec3)
| image_texture (file : String.string).

(** The arguments of the three [sphere] constructors [main] calls:
    with a texture, with a colour, with a colour and a fuzz. *)
Inductive sphere_args : Type :=
| sphere_textured (center : point3) (radius : R) (m : material_t)
                  (tex : Texture)
| sphere_coloured (center : point3) (radius : R) (m : material_t)
                  (albedo : vec3)
| sphere_fuzzy (center : point3) (radius : R) (m : material_t)
               (albedo : vec3) (fuzz : R).

Definition args_center (s : sphere_args) : point3 :=
  match s with
  | sphere_textured c _ _ _ | sphere_coloured c _ _ _
  | sphere_fuzzy c _ _ _ _ => c
  end.

Definition args_radius (s : sphere_args) : R :=
  match s with
  | sphere_textured _ k _ _ | sphere_coloured _ k _ _
  | sphere_fuzzy _ k _ _ _ => k
  end.

(** The integers [from, from + 1, ..., from + n - 1]. *)
Definition zseq (from : Z) (n : nat) : list Z :=
  map (fun i => (from + Z.of_nat i)%Z) (seq 0 n).

(** The cells [(a, b)] in the order of the two nested loops, both from
    [-11] up to [10]. *)
Definition grid : list (Z * Z) :=
  flat_map (fun a => map (fun b => (a, b)) (zseq (-11) 22)) (zseq (-11) 22).

Definition ground_sphere : sphere_args :=
  sphere_textured (mk_vec3 0 (-1000) 0) 1000 Lambertian
    (checker_texture (mk_vec3 (2/10) (3/10) (1/10))
                     (mk_vec3 (9/10) (9/10) (9/10))).

Definition xilinx_jpg : String.string :=
  "/home/kranipet/Ray Tracer/RT_SYCL/Xilinx.jpg"%string.

Definition big_metal_sphere : sphere_args :=
  sphere_fuzzy (mk_vec3 4 1 (225/100)) 1 Metal
               (mk_vec3 (7/10) (6/10) (5/10)) 0.
Definition big_image_sphere : sphere_args :=
  sphere_textured (mk_vec3 4 1 0) 1 Lambertian (image_texture xilinx_jpg).
Definition last_image_sphere : sphere_args :=
  sphere_textured (mk_vec3 (-4) 1 0) 1 Lambertian (image_texture xilinx_jpg).

Section Scene.
Context {rng : Type}.

(** The random helpers of [rtweekend.hpp] and [vec3.hpp] (absent) that
    [main] calls: [random_double()], [random_double(min, max)],
    [randomvec3()] and [randomvec3(min, max)]. *)
Variable random_double : Rand rng R.
Variable random_double_range : R -> R -> Rand rng R.
Variable randomvec3 : Rand rng vec3.
Variable randomvec3_range : R -> R -> Rand rng vec3.

(** The two draws in the arguments of [center] are made in an order the
    language leaves open: [x_first] says whether the x coordinate gets
    the earlier one. *)
Variable x_first : bool.

(** The body of the inner loop, lines 205-220, for the cell [(a, b)];
    [emplace_back] appends. *)
Definition place_cell (a b : Z) (spheres : list sphere_args)
    : Rand rng (list sphere_args) :=
  (choose_mat <- random_double ;;
   d1 <- random_double ;;
   d2 <- random_double ;;
   let center :=
     if x_first
     then mk_vec3 (IZR a + 9/10 * d1) (2/10) (IZR b + 9/10 * d2)
     else mk_vec3 (IZR a + 9/10 * d2) (2/10) (IZR b + 9/10 * d1) in
   if Rlt_dec (9/10) (length3 (center - mk_vec3 4 (2/10) 0)%V)
   then
     if Rlt_dec choose_mat (8/10)
     then
       v1 <- randomvec3 ;;
       v2 <- randomvec3 ;;
       ret (spheres ++ [sphere_coloured center (2/10) Lambertian (v1 * v2)%V])
     else if Rlt_dec choose_mat (95/100)
     then
       albedo <- randomvec3_range (1/2) 1 ;;
       fuzz <- random_double_range 0 (1/2) ;;
       ret (spheres ++ [sphere_fuzzy center (2/10) Metal albedo fuzz])
     else ret spheres
   else ret spheres)%rand.

(** The two nested loops over a list of cells. *)
Fixpoint place_cells (cells : list (Z * Z)) (spheres : list sphere_args)
    : Rand rng (list sphere_args) :=
  match cells with
  | [] => ret spheres
  | (a, b) :: rest =>
      (spheres' <- place_cell a b spheres ;; place_cells rest spheres')%rand
  end.

(** The vector [spheres] as [main] has it when it calls [render]. *)
Definition main_scene : Rand rng (list sphere_args) :=
  (spheres <- place_cells grid [ground_sphere] ;;
   ret (((spheres ++ [big_metal_sphere]) ++ [big_image_sphere])
        ++ [last_image_sphere]))%rand.

(** A small sphere as the loop places them: radius [0.2], centre at
    height [0.2] and farther than [0.9] from [(4, 0.2, 0)], a Lambertian
    colour or a fuzzy metal. *)
Definition small_sphere (s : sphere_args) : Prop :=
  args_radius s = 2/10
  /\ y (args_center s) = 2/10
  /\ 9/10 < length3 (args_center s - mk_vec3 4 (2/10) 0)%V
  /\ ((exists c albedo, s = sphere_coloured c (2/10) Lambertian albedo)
      \/ (exists c albedo fuzz, s = sphere_fuzzy c (2/10) Metal albedo fuzz)).
End Scene.

(** The [num_spheres] that [main] passes to [render]. *)
Definition main_num_spheres : nat := 460.

(** Random helpers for tests that always return zero. *)
Definition zero_range : R -> R -> Rand unit R := fun _ _ => ret 0.
Definition zero_vec : Rand unit vec3 := ret zero3.
Definition zero_vec_range : R -> R -> Rand unit vec3 := fun _ _ => ret zero3.

(** The cell whose corner is the point [(4, 0.2, 0)] of the test. *)
Definition is_hole (c : Z * Z) : bool := ((fst c =? 4) && (snd c =? 0))%Z.

(** ** Paths that reach the background *)

Section Escapes.
Context {rng : Type}.
Context {hitable : Type} `{Hitable hitable}.
Variable scatter_material :
  hit_record -> ray -> vec3 -> ray -> Rand rng (bool * vec3 * ray).
Variable uninit_rec : hit_record.

(** Within [n] iterations the scan of some iteration finds no hit, every
    iteration before it having found a hit on which [scatter_material]
    returned true. *)
Fixpoint escapes (spheres : list hitable) (n : nat) (r : ray) (a : vec3)
    (sc : ray) (g : rng) : Prop :=
  match n with
  | O => False
  | S n' =>
      fst (hit_world uninit_rec r (1/1000) infinity uninit_rec spheres)
        = false
      \/ exists rec a' s g',
           hit_world uninit_rec r (1/1000) infinity uninit_rec spheres
             = (true, rec)
           /\ scatter_material rec r a sc g = ((true, a', s), g')
           /\ escapes spheres n' s a' s g'
  end.
End Escapes.

(* ================================================================== *)
(** * Part II: properties *)
(* ================================================================== *)

(** ** Bounds *)

Lemma le_bound_refl (c : bound_t) : le_bound c c.
Proof. destruct c; simpl; [apply Rle_refl | exact I]. Qed.

Lemma lt_le_bound (a : R) (c : bound_t) :
  lt_bound a c -> le_bound (Finite a) c.
Proof. destruct c; simpl; [apply Rlt_le | trivial]. Qed.

Lemma lt_bound_le_trans (a : R) (c c' : bound_t) :
  lt_bound a c -> le_bound c c' -> lt_bound a c'.
Proof.
  destruct c as [u|], c' as [v|]; simpl; trivial; try contradiction.
  apply Rlt_le_trans.
Qed.

Lemma lt_bound_lt_trans (a b : R) (c : bound_t) :
  a < b -> lt_bound b c -> lt_bound a c.
Proof. destruct c; simpl; [apply Rlt_trans | trivial]. Qed.

Lemma inside_true (tmin s : R) (tmax : bound_t) :
  inside tmin s tmax = true <-> tmin < s /\ lt_bound s tmax.
Proof.
  unfold inside.
  destruct (Rlt_dec tmin s) as [Hl|Hl];
    [destruct (lt_bound_dec s tmax) as [Hu|Hu] | ]; split;
    try tauto; try discriminate.
Qed.

Lemma between_true (lo v hi : R) :
  between lo v hi = true <-> lo <= v <= hi.
Proof.
  unfold between.
  destruct (Rle_dec lo v) as [Hl|Hl];
    [destruct (Rle_dec v hi) as [Hu|Hu] | ]; split;
    try tauto; try discriminate.
Qed.

(** ** The generic scan *)

Section ScanFacts.
Context {P O : Type}.
Variable query : P -> bound_t -> O -> bool * O.
Variable t_of : O -> R.
Variable min : R.

Local Abbreviation consistent q := (interval_consistent t_of min (query q)).
Local Abbreviation scan := (scan_loop query t_of).

(** Once set, the flag stays set. *)
Lemma scan_loop_flag_true ps : forall tmp c out,
  fst (scan ps tmp true c out) = true.
Proof.
  induction ps as [|q rest IH]; intros tmp c out; simpl; [reflexivity|].
  destruct (query q c tmp) as [[|] tmp']; apply IH.
Qed.

(** The output is written only together with the flag. *)
Lemma scan_loop_frame ps : forall tmp c out,
  fst (scan ps tmp false c out) = false ->
  snd (scan ps tmp false c out) = out.
Proof.
  induction ps as [|q rest IH]; intros tmp c out; simpl; [reflexivity|].
  destruct (query q c tmp) as [[|] tmp'].
  - rewrite scan_loop_flag_true. discriminate.
  - apply IH.
Qed.

(** A consistent test answers the same whatever record it is handed. *)
Lemma consistent_tmp q c tmp tmp' o :
  consistent q -> query q c tmp = (true, o) -> query q c tmp' = (true, o).
Proof.
  intros (Ha & Hb & _) Hq.
  apply (Hb c c tmp tmp' o Hq (le_bound_refl c)).
  apply (Ha c tmp o Hq).
Qed.

(** What the loop returns, relative to the bound [c] it is entered
    with: either no member of [ps] hits below [c] and flag and output
    are untouched, or the output is the nearest hit below [c]. *)
Lemma scan_loop_spec ps : forall tmp ha c out,
  Forall (fun q => consistent q) ps ->
  (scan ps tmp ha c out = (ha, out)
   /\ forall q tmp', In q ps -> fst (query q c tmp') = false)
  \/ (exists o, scan ps tmp ha c out = (true, o)
      /\ lt_bound (t_of o) c
      /\ (exists q tmp', In q ps /\ query q c tmp' = (true, o))
      /\ forall q tmp' o', In q ps -> query q c tmp' = (true, o') ->
           t_of o <= t_of o').
Proof.
  induction ps as [|q rest IH]; intros tmp ha c out HF.
  - left. split; [reflexivity | intros q tmp' []].
  - pose proof (Forall_inv HF) as Hq.
    pose proof (Forall_inv_tail HF) as Hrest.
    pose proof Hq as (Ha & Hb & Hc).
    simpl. destruct (query q c tmp) as [[|] tmp1] eqn:E.
    + (* the head is hit at [tmp1], below [c] *)
      destruct (Ha _ _ _ E) as [Hlo Hup].
      right.
      destruct (IH tmp1 true (Finite (t_of tmp1)) tmp1 Hrest)
        as [[Hres Hnone] | (o & Hres & Hlt & (q1 & tq & Hin & Hq1) & Hmin)].
      * exists tmp1. rewrite Hres. split; [reflexivity|].
        split; [exact Hup|]. split.
        { exists q, tmp. split; [now left | exact E]. }
        intros q' tmp' o' [<- | Hin] Hq'.
        { rewrite (consistent_tmp _ _ _ tmp _ Hq Hq') in E.
          injection E as ->. apply Rle_refl. }
        destruct (Rle_lt_dec (t_of tmp1) (t_of o')) as [|Hlt]; [assumption|].
        exfalso.
        assert (Hq'c : consistent q')
          by (rewrite Forall_forall in Hrest; apply Hrest;
              apply list_elem_of_In; exact Hin).
        destruct Hq'c as (_ & Hb' & _).
        specialize (Hb' c (Finite (t_of tmp1)) tmp' tmp' o' Hq'
                        (lt_le_bound _ _ Hup) Hlt).
        specialize (Hnone q' tmp' Hin). rewrite Hb' in Hnone. discriminate.
      * simpl in Hlt.
        exists o. rewrite Hres. split; [reflexivity|].
        split; [apply (lt_bound_lt_trans _ _ _ Hlt Hup)|]. split.
        { exists q1, tq. split; [now right|].
          assert (Hq1c : consistent q1)
            by (rewrite Forall_forall in Hrest; apply Hrest;
                apply list_elem_of_In; exact Hin).
          pose proof Hq1c as (Ha1 & Hb1 & Hc1).
          destruct (Hc1 c (Finite (t_of tmp1)) tq o (lt_le_bound _ _ Hup) Hq1)
            as (o2 & Ho2 & Hle).
          assert (Hn : query q1 (Finite (t_of tmp1)) tq = (true, o2)).
          { apply (Hb1 c _ tq tq o2 Ho2 (lt_le_bound _ _ Hup)).
            simpl. lra. }
          rewrite Hn in Hq1. injection Hq1 as ->. exact Ho2. }
        intros q' tmp' o' [<- | Hin'] Hq'.
        { rewrite (consistent_tmp _ _ _ tmp _ Hq Hq') in E.
          injection E as ->. lra. }
        destruct (Rle_lt_dec (t_of tmp1) (t_of o')) as [|Hlt']; [lra|].
        assert (Hq'c : consistent q')
          by (rewrite Forall_forall in Hrest; apply Hrest;
              apply list_elem_of_In; exact Hin').
        destruct Hq'c as (_ & Hb' & _).
        specialize (Hb' c (Finite (t_of tmp1)) tmp' tmp' o' Hq'
                        (lt_le_bound _ _ Hup) Hlt').
        apply (Hmin q' tmp' o' Hin' Hb').
    + (* the head is missed *)
      assert (Hhead : forall tmp', fst (query q c tmp') = false).
      { intros tmp'. destruct (query q c tmp') as [[|] o'] eqn:E'; [|reflexivity].
        rewrite (consistent_tmp _ _ _ tmp _ Hq E') in E. discriminate. }
      destruct (IH tmp1 ha c out Hrest)
        as [[Hres Hnone] | (o & Hres & Hlt & (q1 & tq & Hin & Hq1) & Hmin)].
      * left. split; [exact Hres|].
        intros q' tmp' [<- | Hin]; [apply Hhead | now apply Hnone].
      * right. exists o. split; [exact Hres|]. split; [exact Hlt|]. split.
        { exists q1, tq. split; [now right | exact Hq1]. }
        intros q' tmp' o' [<- | Hin'] Hq'.
        { specialize (Hhead tmp'). rewrite Hq' in Hhead. discriminate. }
        apply (Hmin q' tmp' o' Hin' Hq').
Qed.

(** The scan from its initial state: it reports a hit exactly when
    some member does, the record it returns is a member's report in
    the full interval and no member reports anything nearer, and
    without a hit the output is untouched. *)
Lemma scan_nearest ps tmp max out :
  Forall (fun q => consistent q) ps ->
  (fst (scan ps tmp false max out) = true <->
     exists q o, In q ps /\ reports query max q o)
  /\ (fst (scan ps tmp false max out) = true ->
        (min < t_of (snd (scan ps tmp false max out))
         /\ lt_bound (t_of (snd (scan ps tmp false max out))) max)
        /\ (exists q, In q ps
              /\ reports query max q (snd (scan ps tmp false max out)))
        /\ forall q o', In q ps -> reports query max q o' ->
             t_of (snd (scan ps tmp false max out)) <= t_of o')
  /\ (fst (scan ps tmp false max out) = false ->
        snd (scan ps tmp false max out) = out).
Proof.
  intros HF.
  destruct (scan_loop_spec ps tmp false max out HF)
    as [[Hres Hnone] | (o & Hres & Hlt & (q1 & tq & Hin & Hq1) & Hmin)];
    rewrite Hres; simpl.
  - split; [split; [discriminate|] | split; [discriminate | reflexivity]].
    intros (q & o & Hin & tmp' & Hq).
    specialize (Hnone q tmp' Hin). rewrite Hq in Hnone. discriminate.
  - split; [split; [|reflexivity] | split; [|discriminate]].
    + intros _. exists q1, o. split; [exact Hin | now exists tq].
    + intros _. split; [|split].
      * split; [|exact Hlt].
        rewrite Forall_forall in HF.
        apply list_elem_of_In, HF in Hin. destruct Hin as (Ha & _).
        apply (Ha _ _ _ Hq1).
      * exists q1. split; [exact Hin | now exists tq].
      * intros q o' Hq (tmp' & Ho'). apply (Hmin q tmp' o' Hq Ho').
Qed.

(** Reordering the members changes neither the flag nor the distance
    returned, and not the record either when there are no ties. *)
Lemma scan_permutation ps ps' tmp tmp' max out :
  Forall (fun q => consistent q) ps ->
  Permutation ps ps' ->
  fst (scan ps tmp false max out) = fst (scan ps' tmp' false max out)
  /\ t_of (snd (scan ps tmp false max out))
     = t_of (snd (scan ps' tmp' false max out))
  /\ (tie_free query t_of max ps ->
      snd (scan ps tmp false max out) = snd (scan ps' tmp' false max out)).
Proof.
  intros HF HP.
  assert (HF' : Forall (fun q => consistent q) ps').
  { rewrite Forall_forall in *. intros q Hq. apply HF.
    rewrite HP. exact Hq. }
  destruct (scan_nearest ps tmp max out HF) as (Hiff & Hhit & Hmiss).
  destruct (scan_nearest ps' tmp' max out HF') as (Hiff' & Hhit' & Hmiss').
  assert (Hflag : fst (scan ps tmp false max out)
                  = fst (scan ps' tmp' false max out)).
  { destruct (fst (scan ps tmp false max out)) eqn:E1,
             (fst (scan ps' tmp' false max out)) eqn:E2; try reflexivity.
    - destruct (proj1 Hiff eq_refl) as (q & o & Hin & Hr).
      symmetry. apply Hiff'. exists q, o.
      split; [apply (Permutation_in _ HP Hin) | exact Hr].
    - destruct (proj1 Hiff' eq_refl) as (q & o & Hin & Hr).
      apply Hiff. exists q, o.
      split; [apply (Permutation_in _ (Permutation_sym HP) Hin) | exact Hr]. }
  split; [exact Hflag|].
  destruct (fst (scan ps tmp false max out)) eqn:E1.
  - symmetry in Hflag.
    destruct (Hhit eq_refl) as (_ & (q & Hin & Hr) & Hmin).
    destruct (Hhit' Hflag) as (_ & (q' & Hin' & Hr') & Hmin').
    apply (Permutation_in _ (Permutation_sym HP)) in Hin'.
    assert (Heq : t_of (snd (scan ps tmp false max out))
                  = t_of (snd (scan ps' tmp' false max out))).
    { apply Rle_antisym.
      - apply (Hmin q' _ Hin' Hr').
      - apply (Hmin' q _ (Permutation_in _ HP Hin) Hr). }
    split; [exact Heq|].
    intros Htie. apply (Htie q q' _ _ Hin Hin' Hr Hr' Heq).
  - symmetry in Hflag.
    rewrite (Hmiss eq_refl), (Hmiss' Hflag). split; [reflexivity|trivial].
Qed.
End ScanFacts.

(** ** The two loops are instances of the scan *)

Lemma hit_world_loop_scan `{Hitable hitable} (r : ray) (min : R)
    (spheres : list hitable) : forall temp_rec hit_anything closest rec,
  hit_world_loop r min spheres temp_rec hit_anything closest rec
  = scan_loop (hit_query r min) t spheres temp_rec hit_anything closest rec.
Proof.
  induction spheres as [|s rest IH]; intros; simpl; [reflexivity|].
  unfold hit_query at 1.
  destruct (hit s r min closest temp_rec) as [[|] tmp']; apply IH.
Qed.

Lemma box_hit_loop_scan `{RectHitable xy_rect, RectHitable xz_rect,
                          RectHitable yz_rect}
    (r : ray) (min : R) (sds : list rectangle_t) :
  forall temp_rec temp_m hit_anything closest rec m,
  box_hit_loop r min sds temp_rec temp_m hit_anything closest rec m
  = (fun res => (fst res, fst (snd res), snd (snd res)))
      (scan_loop (side_query r min) (fun o => t (fst o)) sds
                 (temp_rec, temp_m) hit_anything closest (rec, m)).
Proof.
  induction sds as [|side rest IH]; intros; [reflexivity|].
  cbn [box_hit_loop scan_loop].
  assert (E : side_query r min side closest (temp_rec, temp_m)
              = let '(h, rc, mm) :=
                  visit_hit side r min closest temp_rec temp_m in
                (h, (rc, mm))) by reflexivity.
  rewrite E.
  destruct (visit_hit side r min closest temp_rec temp_m)
    as [[[|] tmp'] m']; apply IH.
Qed.

(** ** The modelled primitives meet the contract *)

Lemma interval_consistent_ext {O : Type} (t_of : O -> R) (min : R)
    (q q' : bound_t -> O -> bool * O) :
  (forall c tmp, q' c tmp = q c tmp) ->
  interval_consistent t_of min q -> interval_consistent t_of min q'.
Proof.
  intros E (Ha & Hb & Hc). repeat split.
  - apply (Ha c tmp). now rewrite <- E.
  - apply (Ha c tmp). now rewrite <- E.
  - intros c c' tmp tmp' o Hq. rewrite E in Hq. rewrite E. now apply (Hb c c' tmp).
  - intros c c' tmp o' Hle Hq. rewrite E in Hq.
    destruct (Hc c c' tmp o' Hle Hq) as (o & Ho & Hlt).
    exists o. now rewrite E.
Qed.

(** A test that tries a nearer candidate and then a farther one, each
    against the open interval, meets the contract. *)
Lemma two_root_consistent {O : Type} (t_of : O -> R) (min : R)
    (guard : bool) (o1 o2 : O) :
  t_of o1 <= t_of o2 ->
  interval_consistent t_of min
    (fun c tmp =>
       if guard
       then (if inside min (t_of o1) c then (true, o1)
             else if inside min (t_of o2) c then (true, o2)
             else (false, tmp))
       else (false, tmp)).
Proof.
  intros Hle. repeat split.
  - destruct guard; [|discriminate].
    destruct (inside min (t_of o1) c) eqn:E1.
    + injection H as <-. now apply inside_true in E1.
    + destruct (inside min (t_of o2) c) eqn:E2; [|discriminate].
      injection H as <-. now apply inside_true in E2.
  - destruct guard; [|discriminate].
    destruct (inside min (t_of o1) c) eqn:E1.
    + injection H as <-. now apply inside_true in E1.
    + destruct (inside min (t_of o2) c) eqn:E2; [|discriminate].
      injection H as <-. now apply inside_true in E2.
  - intros c c' tmp tmp' o Hq Hcc Hlt.
    destruct guard; [|discriminate].
    destruct (inside min (t_of o1) c) eqn:E1.
    + injection Hq as <-. apply inside_true in E1.
      assert (E : inside min (t_of o1) c' = true)
        by (apply inside_true; tauto).
      now rewrite E.
    + destruct (inside min (t_of o2) c) eqn:E2; [|discriminate].
      injection Hq as <-. apply inside_true in E2.
      assert (E : inside min (t_of o1) c' = false).
      { destruct (inside min (t_of o1) c') eqn:E; [|reflexivity].
        apply inside_true in E. destruct E as [E E'].
        assert (inside min (t_of o1) c = true)
          by (apply inside_true; split;
              [exact E | apply (lt_bound_le_trans _ _ _ E' Hcc)]).
        congruence. }
      assert (E' : inside min (t_of o2) c' = true)
        by (apply inside_true; tauto).
      now rewrite E, E'.
  - intros c c' tmp o' Hcc Hq.
    destruct guard; [|discriminate].
    destruct (inside min (t_of o1) c') eqn:E1.
    + injection Hq as <-. apply inside_true in E1. destruct E1 as [E E'].
      assert (E1 : inside min (t_of o1) c = true)
        by (apply inside_true; split;
            [exact E | apply (lt_bound_le_trans _ _ _ E' Hcc)]).
      rewrite E1. exists o1. split; [reflexivity | apply Rle_refl].
    + destruct (inside min (t_of o2) c') eqn:E2; [|discriminate].
      injection Hq as <-. apply inside_true in E2. destruct E2 as [E E'].
      assert (E2' : inside min (t_of o2) c = true)
        by (apply inside_true; split;
            [exact E | apply (lt_bound_le_trans _ _ _ E' Hcc)]).
      destruct (inside min (t_of o1) c).
      * exists o1. split; [reflexivity | exact Hle].
      * rewrite E2'. exists o2. split; [reflexivity | apply Rle_refl].
Qed.

(** The same for a single candidate. *)
Lemma one_root_consistent {O : Type} (t_of : O -> R) (min : R)
    (guard : bool) (o : O) :
  interval_consistent t_of min
    (fun c tmp =>
       if guard && inside min (t_of o) c then (true, o) else (false, tmp)).
Proof.
  eapply interval_consistent_ext;
    [| apply (two_root_consistent t_of min guard o o (Rle_refl _))].
  intros c tmp. destruct guard, (inside min (t_of o) c); reflexivity.
Qed.

Lemma sphere_roots_ordered (a hb d : R) :
  0 <= a -> (- hb - sqrt d) / a <= (- hb + sqrt d) / a.
Proof.
  intros Ha. pose proof (sqrt_pos d) as Hs.
  destruct (Req_dec a 0) as [->|Hne].
  - unfold Rdiv. rewrite Rinv_0. lra.
  - assert (0 < / a) by (apply Rinv_0_lt_compat; lra).
    unfold Rdiv. nra.
Qed.

Lemma dot_self_nonneg (v : vec3) : 0 <= dot v v.
Proof. unfold dot. nra. Qed.

(** The modelled sphere test meets the contract, for every sphere, ray
    and lower bound. *)
Lemma sphere_hit_consistent (sp : sphere) (r : ray) (min : R) :
  interval_consistent t min (@hit_query sphere sphere_hit r min sp).
Proof.
  set (oc := (origin r - center sp)%V).
  set (a := dot (direction r) (direction r)).
  set (hb := dot oc (direction r)).
  set (d := hb * hb - a * (dot oc oc - radius sp * radius sp)).
  eapply interval_consistent_ext;
    [| apply (two_root_consistent t min
                (if Rlt_dec d 0 then false else true)
                (sphere_record sp r ((- hb - sqrt d) / a))
                (sphere_record sp r ((- hb + sqrt d) / a)))].
  - intros c tmp. unfold hit_query, hit, sphere_hit.
    fold oc. fold a. fold hb. fold d. simpl.
    destruct (Rlt_dec d 0); reflexivity.
  - simpl. apply sphere_roots_ordered, dot_self_nonneg.
Qed.

Section RectangleFacts.
Variable eps : R.

Local Abbreviation rect_query :=
  (@side_query (xy_rect_hit eps) (xz_rect_hit eps) (yz_rect_hit eps)).

(** The modelled rectangle tests meet the contract, for every side,
    ray and lower bound. *)
Lemma rectangle_hit_consistent (side : rectangle_t) (r : ray) (min : R) :
  interval_consistent (fun o => t (fst o)) min (rect_query r min side).
Proof.
  destruct side as [q|q|q].
  - eapply interval_consistent_ext;
      [| apply (one_root_consistent (fun o => t (fst o)) min
                  (negb (if Rle_dec (Rabs (z (direction r))) eps
                         then true else false)
                   && (between (xy_x0 q)
                         (x (origin r) + (xy_k q - z (origin r))
                            / z (direction r) * x (direction r)) (xy_x1 q)
                       && between (xy_y0 q)
                         (y (origin r) + (xy_k q - z (origin r))
                            / z (direction r) * y (direction r)) (xy_y1 q)))
                  ({| p := ray_at r ((xy_k q - z (origin r))
                                      / z (direction r));
                      normal := mk_vec3 0 0 1;
                      t := (xy_k q - z (origin r)) / z (direction r);
                      rec_material := xy_mat q |}, xy_mat q))].
    intros c [tr tm].
    unfold side_query, visit_hit, rect_hit, xy_rect_hit. simpl.
    destruct (Rle_dec (Rabs (z (direction r))) eps); simpl; [reflexivity|].
    destruct (inside min ((xy_k q - z (origin r)) / z (direction r)) c);
      simpl; [|now rewrite andb_false_r].
    rewrite andb_true_r.
    destruct (between _ _ _ && between _ _ _); reflexivity.
  - eapply interval_consistent_ext;
      [| apply (one_root_consistent (fun o => t (fst o)) min
                  (negb (if Rle_dec (Rabs (y (direction r))) eps
                         then true else false)
                   && (between (xz_x0 q)
                         (x (origin r) + (xz_k q - y (origin r))
                            / y (direction r) * x (direction r)) (xz_x1 q)
                       && between (xz_z0 q)
                         (z (origin r) + (xz_k q - y (origin r))
                            / y (direction r) * z (direction r)) (xz_z1 q)))
                  ({| p := ray_at r ((xz_k q - y (origin r))
                                      / y (direction r));
                      normal := mk_vec3 0 1 0;
                      t := (xz_k q - y (origin r)) / y (direction r);
                      rec_material := xz_mat q |}, xz_mat q))].
    intros c [tr tm].
    unfold side_query, visit_hit, rect_hit, xz_rect_hit. simpl.
    destruct (Rle_dec (Rabs (y (direction r))) eps); simpl; [reflexivity|].
    destruct (inside min ((xz_k q - y (origin r)) / y (direction r)) c);
      simpl; [|now rewrite andb_false_r].
    rewrite andb_true_r.
    destruct (between _ _ _ && between _ _ _); reflexivity.
  - eapply interval_consistent_ext;
      [| apply (one_root_consistent (fun o => t (fst o)) min
                  (negb (if Rle_dec (Rabs (x (direction r))) eps
                         then true else false)
                   && (between (yz_y0 q)
                         (y (origin r) + (yz_k q - x (origin r))
                            / x (direction r) * y (direction r)) (yz_y1 q)
                       && between (yz_z0 q)
                         (z (origin r) + (yz_k q - x (origin r))
                            / x (direction r) * z (direction r)) (yz_z1 q)))
                  ({| p := ray_at r ((yz_k q - x (origin r))
                                      / x (direction r));
                      normal := mk_vec3 1 0 0;
                      t := (yz_k q - x (origin r)) / x (direction r);
                      rec_material := yz_mat q |}, yz_mat q))].
    intros c [tr tm].
    unfold side_query, visit_hit, rect_hit, yz_rect_hit. simpl.
    destruct (Rle_dec (Rabs (x (direction r))) eps); simpl; [reflexivity|].
    destruct (inside min ((yz_k q - x (origin r)) / x (direction r)) c);
      simpl; [|now rewrite andb_false_r].
    rewrite andb_true_r.
    destruct (between _ _ _ && between _ _ _); reflexivity.
Qed.
End RectangleFacts.

(** ** The two scans *)

Section ScanTheorems.
Context {hitable : Type} `{Hitable hitable}.
Context `{RectHitable xy_rect, RectHitable xz_rect, RectHitable yz_rect}.
Variables (r : ray) (min : R).

Local Abbreviation sphere_ok :=
  (fun s : hitable => interval_consistent t min (hit_query r min s)).
Local Abbreviation side_ok :=
  (fun side : rectangle_t =>
     interval_consistent (fun o => t (fst o)) min (side_query r min side)).

Lemma hit_world_nearest_holds temp0 max rec0 (spheres : list hitable) :
  Forall sphere_ok spheres ->
  hit_world_nearest temp0 r min max rec0 spheres.
Proof.
  intros HF. unfold hit_world_nearest, hit_world. cbv zeta.
  rewrite hit_world_loop_scan.
  destruct (scan_nearest (hit_query r min) t min spheres temp0 max rec0 HF)
    as (Hiff & Hhit & _).
  split.
  - rewrite Hiff. split.
    + intros (s & o & Hin & tmp & Hq). exists s, tmp.
      split; [exact Hin|]. unfold hit_query in Hq. now rewrite Hq.
    + intros (s & tmp & Hin & Hq).
      destruct (hit s r min max tmp) as [b o] eqn:E. simpl in Hq. subst b.
      exists s, o. split; [exact Hin | now exists tmp].
  - intros Hflag. destruct (Hhit Hflag) as (Hint & (s & Hin & tmp & Hq) & Hmin).
    split; [exact Hint|]. split.
    + exists s, tmp. split; [exact Hin | exact Hq].
    + intros s' tmp' o Hin' Hq'. apply (Hmin s' o Hin'). now exists tmp'.
Qed.

Lemma box_hit_nearest_holds temp0 tempm0 (b : box) max rec0 m0 :
  Forall side_ok (sides b) ->
  box_hit_nearest temp0 tempm0 b r min max rec0 m0.
Proof.
  destruct b as [bmin bmax bm sds]. simpl.
  intros HF. unfold box_hit_nearest, box_hit. cbv zeta. simpl sides.
  rewrite box_hit_loop_scan. cbv beta.
  destruct (scan_nearest (side_query r min) (fun o => t (fst o)) min sds
              (temp0, tempm0) max (rec0, m0) HF) as (Hiff & Hhit & _).
  set (res := scan_loop (side_query r min) (fun o => t (fst o)) sds
                (temp0, tempm0) false max (rec0, m0)) in *.
  simpl. split.
  - rewrite Hiff. split.
    + intros (side & o & Hin & [tr tm] & Hq). exists side, tr, tm.
      split; [exact Hin|]. unfold side_query in Hq. simpl in Hq.
      destruct (visit_hit side r min max tr tm) as [[b rc] mm].
      now injection Hq as -> _.
    + intros (side & tr & tm & Hin & Hq).
      destruct (visit_hit side r min max tr tm) as [[b rc] mm] eqn:E.
      simpl in Hq. subst b.
      exists side, (rc, mm). split; [exact Hin|]. exists (tr, tm).
      unfold side_query. simpl. now rewrite E.
  - intros Hflag.
    destruct (Hhit Hflag) as (Hint & (side & Hin & [tr tm] & Hq) & Hmin).
    split; [exact Hint|]. split.
    + exists side, tr, tm. split; [exact Hin|].
      unfold side_query in Hq. simpl in Hq.
      destruct (visit_hit side r min max tr tm) as [[b rc] mm].
      injection Hq as -> Hq. rewrite Hflag, <- Hq. reflexivity.
    + intros side' tr' tm' o m Hin' Hq'.
      apply (Hmin side' (o, m) Hin'). exists (tr', tm').
      unfold side_query. simpl. now rewrite Hq'.
Qed.
End ScanTheorems.

(** ** Evaluating the modelled primitives *)

Ltac rect_accepts Hd Hlo Hup Hu Hv :=
  match goal with
  | |- context [Rle_dec ?a ?e] => destruct (Rle_dec a e); [lra|]
  end;
  rewrite (proj2 (inside_true _ _ _) (conj Hlo Hup));
  rewrite (proj2 (between_true _ _ _) Hu), (proj2 (between_true _ _ _) Hv);
  reflexivity.

Ltac rect_rejects :=
  match goal with
  | |- context [Rle_dec ?a ?e] => destruct (Rle_dec a e); [reflexivity|]
  end;
  match goal with
  | |- context [inside ?a ?s ?c] =>
      let E := fresh "E" in
      destruct (inside a s c) eqn:E; [apply inside_true in E | reflexivity]
  end;
  repeat match goal with
  | |- context [between ?a ?s ?c] =>
      let E := fresh "E" in
      destruct (between a s c) eqn:E; [apply between_true in E | reflexivity]
  end;
  exfalso; tauto.

Section RectangleEval.
Variable eps : R.
Variables (r : ray) (min : R) (max : bound_t).
Variables (rec : hit_record) (m : material_t).

Lemma xy_rect_hit_accepts q :
  let s := (xy_k q - z (origin r)) / z (direction r) in
  eps < Rabs (z (direction r)) ->
  min < s -> lt_bound s max ->
  xy_x0 q <= x (origin r) + s * x (direction r) <= xy_x1 q ->
  xy_y0 q <= y (origin r) + s * y (direction r) <= xy_y1 q ->
  xy_rect_hit eps q r min max rec m
  = (true,
     {| p := ray_at r s; normal := mk_vec3 0 0 1; t := s;
        rec_material := xy_mat q |},
     xy_mat q).
Proof.
  intros s Hd Hlo Hup Hu Hv. unfold xy_rect_hit. fold s.
  rect_accepts Hd Hlo Hup Hu Hv.
Qed.

Lemma xy_rect_hit_rejects q :
  let s := (xy_k q - z (origin r)) / z (direction r) in
  Rabs (z (direction r)) <= eps
  \/ ~ (min < s /\ lt_bound s max)
  \/ ~ (xy_x0 q <= x (origin r) + s * x (direction r) <= xy_x1 q)
  \/ ~ (xy_y0 q <= y (origin r) + s * y (direction r) <= xy_y1 q) ->
  xy_rect_hit eps q r min max rec m = (false, rec, m).
Proof. intros s Hr. unfold xy_rect_hit. fold s. rect_rejects. Qed.

Lemma xz_rect_hit_accepts q :
  let s := (xz_k q - y (origin r)) / y (direction r) in
  eps < Rabs (y (direction r)) ->
  min < s -> lt_bound s max ->
  xz_x0 q <= x (origin r) + s * x (direction r) <= xz_x1 q ->
  xz_z0 q <= z (origin r) + s * z (direction r) <= xz_z1 q ->
  xz_rect_hit eps q r min max rec m
  = (true,
     {| p := ray_at r s; normal := mk_vec3 0 1 0; t := s;
        rec_material := xz_mat q |},
     xz_mat q).
Proof.
  intros s Hd Hlo Hup Hu Hv. unfold xz_rect_hit. fold s.
  rect_accepts Hd Hlo Hup Hu Hv.
Qed.

Lemma xz_rect_hit_rejects q :
  let s := (xz_k q - y (origin r)) / y (direction r) in
  Rabs (y (direction r)) <= eps
  \/ ~ (min < s /\ lt_bound s max)
  \/ ~ (xz_x0 q <= x (origin r) + s * x (direction r) <= xz_x1 q)
  \/ ~ (xz_z0 q <= z (origin r) + s * z (direction r) <= xz_z1 q) ->
  xz_rect_hit eps q r min max rec m = (false, rec, m).
Proof. intros s Hr. unfold xz_rect_hit. fold s. rect_rejects. Qed.

Lemma yz_rect_hit_accepts q :
  let s := (yz_k q - x (origin r)) / x (direction r) in
  eps < Rabs (x (direction r)) ->
  min < s -> lt_bound s max ->
  yz_y0 q <= y (origin r) + s * y (direction r) <= yz_y1 q ->
  yz_z0 q <= z (origin r) + s * z (direction r) <= yz_z1 q ->
  yz_rect_hit eps q r min max rec m
  = (true,
     {| p := ray_at r s; normal := mk_vec3 1 0 0; t := s;
        rec_material := yz_mat q |},
     yz_mat q).
Proof.
  intros s Hd Hlo Hup Hu Hv. unfold yz_rect_hit. fold s.
  rect_accepts Hd Hlo Hup Hu Hv.
Qed.

Lemma yz_rect_hit_rejects q :
  let s := (yz_k q - x (origin r)) / x (direction r) in
  Rabs (x (direction r)) <= eps
  \/ ~ (min < s /\ lt_bound s max)
  \/ ~ (yz_y0 q <= y (origin r) + s * y (direction r) <= yz_y1 q)
  \/ ~ (yz_z0 q <= z (origin r) + s * z (direction r) <= yz_z1 q) ->
  yz_rect_hit eps q r min max rec m = (false, rec, m).
Proof. intros s Hr. unfold yz_rect_hit. fold s. rect_rejects. Qed.
End RectangleEval.

Section SphereEval.
Variables (sp : sphere) (r : ray) (min : R) (max : bound_t).
Variable rec : hit_record.

Let a := dot (direction r) (direction r).
Let half_b := dot (origin r - center sp)%V (direction r).
Let c := dot (origin r - center sp)%V (origin r - center sp)%V
         - radius sp * radius sp.

Lemma sphere_hit_misses :
  half_b * half_b - a * c < 0 -> sphere_hit sp r min max rec = (false, rec).
Proof.
  intros Hd. unfold sphere_hit. fold a. fold half_b. fold c.
  destruct (Rlt_dec _ 0); [reflexivity | lra].
Qed.

(** [sd] is the square root of the discriminant. *)
Lemma sphere_hit_near_root (sd : R) :
  0 <= sd -> sd * sd = half_b * half_b - a * c ->
  min < (- half_b - sd) / a -> lt_bound ((- half_b - sd) / a) max ->
  sphere_hit sp r min max rec
  = (true, sphere_record sp r ((- half_b - sd) / a)).
Proof.
  intros Hsd Hsq Hlo Hup. unfold sphere_hit. fold a. fold half_b. fold c.
  rewrite <- Hsq, (sqrt_square sd Hsd).
  destruct (Rlt_dec _ 0); [nra|].
  now rewrite (proj2 (inside_true _ _ _) (conj Hlo Hup)).
Qed.

Lemma sphere_hit_none_inside (sd : R) :
  0 <= sd -> sd * sd = half_b * half_b - a * c ->
  ~ (min < (- half_b - sd) / a /\ lt_bound ((- half_b - sd) / a) max) ->
  ~ (min < (- half_b + sd) / a /\ lt_bound ((- half_b + sd) / a) max) ->
  sphere_hit sp r min max rec = (false, rec).
Proof.
  intros Hsd Hsq H1 H2. unfold sphere_hit. fold a. fold half_b. fold c.
  rewrite <- Hsq, (sqrt_square sd Hsd).
  destruct (Rlt_dec _ 0); [reflexivity|].
  destruct (inside min ((- half_b - sd) / a) max) eqn:E1;
    [apply inside_true in E1; tauto|].
  destruct (inside min ((- half_b + sd) / a) max) eqn:E2;
    [apply inside_true in E2; tauto|].
  reflexivity.
Qed.
End SphereEval.

(** One iteration of each loop, by the outcome of the test. *)
Lemma hit_world_loop_hit `{Hitable hitable} r min (s : hitable) rest
    temp_rec ha c rec temp_rec' :
  hit s r min c temp_rec = (true, temp_rec') ->
  hit_world_loop r min (s :: rest) temp_rec ha c rec
  = hit_world_loop r min rest temp_rec' true (Finite (t temp_rec')) temp_rec'.
Proof. intros E. simpl. now rewrite E. Qed.

Lemma hit_world_loop_miss `{Hitable hitable} r min (s : hitable) rest
    temp_rec ha c rec temp_rec' :
  hit s r min c temp_rec = (false, temp_rec') ->
  hit_world_loop r min (s :: rest) temp_rec ha c rec
  = hit_world_loop r min rest temp_rec' ha c rec.
Proof. intros E. simpl. now rewrite E. Qed.

Lemma box_hit_loop_hit `{RectHitable xy_rect, RectHitable xz_rect,
                         RectHitable yz_rect}
    r min side rest temp_rec temp_m ha c rec m temp_rec' temp_m' :
  visit_hit side r min c temp_rec temp_m = (true, temp_rec', temp_m') ->
  box_hit_loop r min (side :: rest) temp_rec temp_m ha c rec m
  = box_hit_loop r min rest temp_rec' temp_m' true (Finite (t temp_rec'))
                 temp_rec' temp_m'.
Proof. intros E. simpl. now rewrite E. Qed.

Lemma box_hit_loop_miss `{RectHitable xy_rect, RectHitable xz_rect,
                          RectHitable yz_rect}
    r min side rest temp_rec temp_m ha c rec m temp_rec' temp_m' :
  visit_hit side r min c temp_rec temp_m = (false, temp_rec', temp_m') ->
  box_hit_loop r min (side :: rest) temp_rec temp_m ha c rec m
  = box_hit_loop r min rest temp_rec' temp_m' ha c rec m.
Proof. intros E. simpl. now rewrite E. Qed.

(** ** Concrete scans *)

Ltac rabs :=
  unfold Rabs;
  match goal with
  | |- context [Rcase_abs ?a] => destruct (Rcase_abs a)
  end; lra.

(** The farther sphere comes first in the array, the scan still returns
    the nearer one. *)
Lemma scan_two_spheres :
  sphere_hit_world blank_record down_ray (1/1000) infinity blank_record
                   [far_sphere; near_sphere]
  = (true, sphere_record near_sphere down_ray 1).
Proof.
  unfold sphere_hit_world, hit_world.
  erewrite hit_world_loop_hit
    by (apply (sphere_hit_near_root far_sphere down_ray _ _ _ 1);
        unfold dot; simpl; try lra; exact I).
  erewrite hit_world_loop_hit
    by (apply (sphere_hit_near_root near_sphere down_ray _ _ _ 1);
        unfold dot; simpl; lra).
  simpl. unfold dot. simpl. do 2 f_equal. lra.
Qed.

(** A ray that misses both spheres. *)
Lemma scan_two_spheres_miss :
  sphere_hit_world blank_record up_ray (1/1000) infinity blank_record
                   [far_sphere; near_sphere]
  = (false, blank_record).
Proof.
  unfold sphere_hit_world, hit_world.
  erewrite hit_world_loop_miss
    by (apply sphere_hit_misses; unfold dot; simpl; lra).
  erewrite hit_world_loop_miss
    by (apply sphere_hit_misses; unfold dot; simpl; lra).
  reflexivity.
Qed.

(** Two spheres in the same place: each array order returns the record
    of the sphere that comes first. *)
Lemma scan_twin_spheres :
  sphere_hit_world blank_record down_ray (1/1000) infinity blank_record
                   [near_sphere; near_sphere_twin]
  = (true, sphere_record near_sphere down_ray 1).
Proof.
  unfold sphere_hit_world, hit_world.
  erewrite hit_world_loop_hit
    by (apply (sphere_hit_near_root near_sphere down_ray _ _ _ 1);
        unfold dot; simpl; try lra; exact I).
  erewrite hit_world_loop_miss
    by (apply (sphere_hit_none_inside near_sphere_twin down_ray _ _ _ 1);
        unfold dot; simpl; lra).
  simpl. unfold dot. simpl. do 2 f_equal. lra.
Qed.

Lemma scan_twin_spheres_swapped :
  sphere_hit_world blank_record down_ray (1/1000) infinity blank_record
                   [near_sphere_twin; near_sphere]
  = (true, sphere_record near_sphere_twin down_ray 1).
Proof.
  unfold sphere_hit_world, hit_world.
  erewrite hit_world_loop_hit
    by (apply (sphere_hit_near_root near_sphere_twin down_ray _ _ _ 1);
        unfold dot; simpl; try lra; exact I).
  erewrite hit_world_loop_miss
    by (apply (sphere_hit_none_inside near_sphere down_ray _ _ _ 1);
        unfold dot; simpl; lra).
  simpl. unfold dot. simpl. do 2 f_equal. lra.
Qed.

Ltac side_hit lem :=
  erewrite box_hit_loop_hit
    by (apply lem; simpl; first [lra | exact I | rabs]).

Ltac side_miss lem :=
  erewrite box_hit_loop_miss
    by (apply lem; simpl;
        first [ left; rabs
              | right; left; simpl; lra
              | right; right; left; lra
              | right; right; right; lra ]).

(** The edge ray against the unit box: the side [z = 1] comes first and
    takes the hit, the side [y = 1] at the same distance is refused. *)
Lemma edge_hit_unit_box :
  rect_box_hit blank_record Lambertian unit_box edge_ray (1/1000) infinity
               blank_record Lambertian
  = (true,
     {| p := ray_at edge_ray 1; normal := mk_vec3 0 0 1; t := 1;
        rec_material := Metal |},
     Metal).
Proof.
  unfold rect_box_hit, box_hit, unit_box, box_new. simpl sides.
  side_hit xy_rect_hit_accepts.
  side_miss xy_rect_hit_rejects.
  side_miss xz_rect_hit_rejects.
  side_miss xz_rect_hit_rejects.
  side_miss yz_rect_hit_rejects.
  side_miss yz_rect_hit_rejects.
  simpl. replace ((1 - 2) / -1) with 1 by lra. reflexivity.
Qed.

(** With the side [y = 1] in front, it takes the hit instead. *)
Lemma edge_hit_unit_box_reordered :
  rect_box_hit blank_record Lambertian unit_box_reordered edge_ray (1/1000)
               infinity blank_record Lambertian
  = (true,
     {| p := ray_at edge_ray 1; normal := mk_vec3 0 1 0; t := 1;
        rec_material := Metal |},
     Metal).
Proof.
  unfold rect_box_hit, box_hit, unit_box_reordered. simpl sides.
  side_hit xz_rect_hit_accepts.
  side_miss xy_rect_hit_rejects.
  side_miss xy_rect_hit_rejects.
  side_miss xz_rect_hit_rejects.
  side_miss yz_rect_hit_rejects.
  side_miss yz_rect_hit_rejects.
  simpl. replace ((1 - 2) / -1) with 1 by lra. reflexivity.
Qed.

(** A ray that moves away from the unit box misses all six sides. *)
Lemma away_miss_unit_box :
  rect_box_hit blank_record Lambertian unit_box away_ray (1/1000) infinity
               blank_record Lambertian
  = (false, blank_record, Lambertian).
Proof.
  unfold rect_box_hit, box_hit, unit_box, box_new. simpl sides.
  side_miss xy_rect_hit_rejects.
  side_miss xy_rect_hit_rejects.
  side_miss xz_rect_hit_rejects.
  side_miss xz_rect_hit_rejects.
  side_miss yz_rect_hit_rejects.
  side_miss yz_rect_hit_rejects.
  reflexivity.
Qed.

Lemma unit_box_reordered_permutation :
  Permutation (sides unit_box) (sides unit_box_reordered).
Proof.
  unfold unit_box, unit_box_reordered, box_new, zero3. simpl.
  apply Permutation_sym.
  apply (Permutation_trans (perm_swap _ _ _)). apply perm_skip.
  apply perm_swap.
Qed.

(** ** Where the output of a scan comes from *)

Section ScanOutput.
Context {P O : Type}.
Variable query : P -> bound_t -> O -> bool * O.
Variable t_of : O -> R.

(** The output is the caller's value or a record some member accepted. *)
Lemma scan_loop_output ps : forall tmp ha c out,
  snd (scan_loop query t_of ps tmp ha c out) = out
  \/ exists q c' tmp', In q ps
       /\ query q c' tmp' = (true, snd (scan_loop query t_of ps tmp ha c out)).
Proof.
  induction ps as [|q rest IH]; intros tmp ha c out; simpl; [now left|].
  destruct (query q c tmp) as [[|] tmp1] eqn:E.
  - right.
    destruct (IH tmp1 true (Finite (t_of tmp1)) tmp1)
      as [-> | (q' & c' & tmp' & Hin & Hq)].
    + exists q, c, tmp. split; [now left | exact E].
    + exists q', c', tmp'. split; [now right | exact Hq].
  - destruct (IH tmp1 ha c out) as [-> | (q' & c' & tmp' & Hin & Hq)];
      [now left | right].
    exists q', c', tmp'. split; [now right | exact Hq].
Qed.
End ScanOutput.

Section ScanClaims.
Context {hitable : Type} `{Hitable hitable}.
Context `{RectHitable xy_rect, RectHitable xz_rect, RectHitable yz_rect}.
Variables (r : ray) (min : R) (max : bound_t).
Variables (rec0 : hit_record) (m0 : material_t).

Lemma hit_world_miss_frame temp0 (spheres : list hitable) :
  fst (hit_world temp0 r min max rec0 spheres) = false ->
  snd (hit_world temp0 r min max rec0 spheres) = rec0.
Proof.
  unfold hit_world. rewrite hit_world_loop_scan. apply scan_loop_frame.
Qed.

Lemma box_hit_miss_frame temp0 tempm0 (b : box) :
  fst (fst (box_hit temp0 tempm0 b r min max rec0 m0)) = false ->
  box_hit temp0 tempm0 b r min max rec0 m0 = (false, rec0, m0).
Proof.
  unfold box_hit. rewrite box_hit_loop_scan. cbv beta.
  pose proof (scan_loop_frame (side_query r min) (fun o => t (fst o))
                (sides b) (temp0, tempm0) max (rec0, m0)) as Hfr.
  destruct (scan_loop (side_query r min) (fun o => t (fst o)) (sides b)
              (temp0, tempm0) false max (rec0, m0)) as [fl [rc mm]].
  simpl in *. intros ->. injection (Hfr eq_refl) as -> ->. reflexivity.
Qed.

Lemma hit_world_output temp0 (spheres : list hitable) :
  snd (hit_world temp0 r min max rec0 spheres) = rec0
  \/ exists s c tmp, In s spheres
       /\ hit s r min c tmp
          = (true, snd (hit_world temp0 r min max rec0 spheres)).
Proof.
  unfold hit_world. rewrite hit_world_loop_scan.
  apply (scan_loop_output (hit_query r min) t).
Qed.

Lemma box_hit_output temp0 tempm0 (b : box) :
  (snd (fst (box_hit temp0 tempm0 b r min max rec0 m0)) = rec0
   /\ snd (box_hit temp0 tempm0 b r min max rec0 m0) = m0)
  \/ exists side c tr tm, In side (sides b)
       /\ visit_hit side r min c tr tm
          = (true, snd (fst (box_hit temp0 tempm0 b r min max rec0 m0)),
             snd (box_hit temp0 tempm0 b r min max rec0 m0)).
Proof.
  unfold box_hit. rewrite box_hit_loop_scan. cbv beta.
  pose proof (scan_loop_output (side_query r min) (fun o => t (fst o))
                (sides b) (temp0, tempm0) false max (rec0, m0)) as Hout.
  destruct (scan_loop (side_query r min) (fun o => t (fst o)) (sides b)
              (temp0, tempm0) false max (rec0, m0)) as [fl [rc mm]].
  simpl in *.
  destruct Hout as [Heq | (side & c & [tr tm] & Hin & Hq)].
  - injection Heq as -> ->. now left.
  - right. exists side, c, tr, tm. split; [exact Hin|].
    unfold side_query in Hq. simpl in Hq.
    destruct (visit_hit side r min c tr tm) as [[b1 rc1] mm1].
    now injection Hq as -> -> ->.
Qed.

Lemma hit_world_permutation temp0 temp0' (spheres spheres' : list hitable) :
  Forall (fun s => interval_consistent t min (hit_query r min s)) spheres ->
  Permutation spheres spheres' ->
  fst (hit_world temp0 r min max rec0 spheres)
  = fst (hit_world temp0' r min max rec0 spheres')
  /\ t (snd (hit_world temp0 r min max rec0 spheres))
     = t (snd (hit_world temp0' r min max rec0 spheres'))
  /\ (tie_free (hit_query r min) t max spheres ->
      hit_world temp0 r min max rec0 spheres
      = hit_world temp0' r min max rec0 spheres').
Proof.
  intros HF HP. unfold hit_world. rewrite !hit_world_loop_scan.
  destruct (scan_permutation (hit_query r min) t min spheres spheres'
              temp0 temp0' max rec0 HF HP) as (Hflag & Ht & Hrec).
  split; [exact Hflag|]. split; [exact Ht|].
  intros Htie. apply injective_projections; [exact Hflag | now apply Hrec].
Qed.

Lemma box_hit_permutation temp0 temp0' tempm0 tempm0' (b b' : box) :
  Forall (fun side => interval_consistent (fun o => t (fst o)) min
                        (side_query r min side)) (sides b) ->
  Permutation (sides b) (sides b') ->
  fst (fst (box_hit temp0 tempm0 b r min max rec0 m0))
  = fst (fst (box_hit temp0' tempm0' b' r min max rec0 m0))
  /\ t (snd (fst (box_hit temp0 tempm0 b r min max rec0 m0)))
     = t (snd (fst (box_hit temp0' tempm0' b' r min max rec0 m0)))
  /\ (tie_free (side_query r min) (fun o => t (fst o)) max (sides b) ->
      box_hit temp0 tempm0 b r min max rec0 m0
      = box_hit temp0' tempm0' b' r min max rec0 m0).
Proof.
  intros HF HP. unfold box_hit. rewrite !box_hit_loop_scan. cbv beta.
  destruct (scan_permutation (side_query r min) (fun o => t (fst o)) min
              (sides b) (sides b') (temp0, tempm0) (temp0', tempm0')
              max (rec0, m0) HF HP) as (Hflag & Ht & Hrec).
  simpl. split; [exact Hflag|]. split; [exact Ht|].
  intros Htie. rewrite Hflag, (Hrec Htie). reflexivity.
Qed.
End ScanClaims.

(** ** Claims on the nearest-hit scan *)

(** C1.  For every ray, interval and finite collection of primitives
    whose intersection tests return their nearest intersection inside the
    interval they are given, [hit_world] over the spheres and [box::hit]
    over the sides report a hit exactly when some primitive reports one
    in [(min, max)], and the record returned is a primitive's report in
    that interval with the smallest distance of all: no primitive
    reports anything nearer. *)
Theorem nearest_hit_scan_correct
    (hitable : Type) (Hs : Hitable hitable)
    (Hxy : RectHitable xy_rect) (Hxz : RectHitable xz_rect)
    (Hyz : RectHitable yz_rect)
    (temp0 : hit_record) (tempm0 : material_t)
    (r : ray) (min : R) (max : bound_t)
    (rec0 : hit_record) (m0 : material_t)
    (spheres : list hitable) (b : box) :
  Forall (fun s => interval_consistent t min (hit_query r min s)) spheres ->
  Forall (fun side => interval_consistent (fun o => t (fst o)) min
                        (side_query r min side)) (sides b) ->
  hit_world_nearest temp0 r min max rec0 spheres
  /\ box_hit_nearest temp0 tempm0 b r min max rec0 m0.
Proof.
  intros Hsph Hsides. split.
  - now apply hit_world_nearest_holds.
  - now apply box_hit_nearest_holds.
Qed.

Lemma nearest_hit_scan_correct_witness :
  @hit_world_nearest sphere sphere_hit blank_record down_ray (1/1000)
     infinity blank_record [far_sphere; near_sphere]
  /\ @box_hit_nearest (xy_rect_hit 0) (xz_rect_hit 0) (yz_rect_hit 0)
       blank_record Lambertian unit_box down_ray (1/1000) infinity
       blank_record Lambertian.
Proof.
  apply (nearest_hit_scan_correct sphere sphere_hit
           (xy_rect_hit 0) (xz_rect_hit 0) (yz_rect_hit 0)).
  - apply Forall_forall. intros s _. apply sphere_hit_consistent.
  - apply Forall_forall. intros side _. apply rectangle_hit_consistent.
Defined.

(** C10.  When [hit_world] returns false the caller's record is left as
    it was, and when [box::hit] returns false so are the caller's record
    and material; in every case the outputs hold either the caller's
    values or a record (and material) that some primitive's test
    accepted. *)
Theorem miss_leaves_outputs_unchanged
    (hitable : Type) (Hs : Hitable hitable)
    (Hxy : RectHitable xy_rect) (Hxz : RectHitable xz_rect)
    (Hyz : RectHitable yz_rect)
    (temp0 : hit_record) (tempm0 : material_t)
    (r : ray) (min : R) (max : bound_t)
    (rec0 : hit_record) (m0 : material_t)
    (spheres : list hitable) (b : box) :
  (fst (hit_world temp0 r min max rec0 spheres) = false ->
   snd (hit_world temp0 r min max rec0 spheres) = rec0)
  /\ (fst (fst (box_hit temp0 tempm0 b r min max rec0 m0)) = false ->
      box_hit temp0 tempm0 b r min max rec0 m0 = (false, rec0, m0))
  /\ (snd (hit_world temp0 r min max rec0 spheres) = rec0
      \/ exists s c tmp, In s spheres
           /\ hit s r min c tmp
              = (true, snd (hit_world temp0 r min max rec0 spheres)))
  /\ ((snd (fst (box_hit temp0 tempm0 b r min max rec0 m0)) = rec0
       /\ snd (box_hit temp0 tempm0 b r min max rec0 m0) = m0)
      \/ exists side c tr tm, In side (sides b)
           /\ visit_hit side r min c tr tm
              = (true, snd (fst (box_hit temp0 tempm0 b r min max rec0 m0)),
                 snd (box_hit temp0 tempm0 b r min max rec0 m0))).
Proof.
  split; [apply hit_world_miss_frame|].
  split; [apply box_hit_miss_frame|].
  split; [apply hit_world_output | apply box_hit_output].
Qed.

Lemma miss_leaves_outputs_unchanged_witness :
  snd (sphere_hit_world blank_record up_ray (1/1000) infinity blank_record
                        [far_sphere; near_sphere]) = blank_record
  /\ rect_box_hit blank_record Lambertian unit_box away_ray (1/1000)
                  infinity blank_record Lambertian
     = (false, blank_record, Lambertian).
Proof.
  destruct (miss_leaves_outputs_unchanged sphere sphere_hit
              (xy_rect_hit 0) (xz_rect_hit 0) (yz_rect_hit 0)
              blank_record Lambertian up_ray (1/1000) infinity
              blank_record Lambertian [far_sphere; near_sphere] unit_box)
    as (Hw & _).
  destruct (miss_leaves_outputs_unchanged sphere sphere_hit
              (xy_rect_hit 0) (xz_rect_hit 0) (yz_rect_hit 0)
              blank_record Lambertian away_ray (1/1000) infinity
              blank_record Lambertian [far_sphere; near_sphere] unit_box)
    as (_ & Hb & _).
  split.
  - apply Hw. fold (@sphere_hit_world). rewrite scan_two_spheres_miss.
    reflexivity.
  - apply Hb. fold (@rect_box_hit). rewrite away_miss_unit_box.
    reflexivity.
Defined.

(** C7, as the code has it.  For collections of primitives whose tests
    return their nearest intersection inside the interval they are given,
    reordering the collection changes neither whether a hit is reported
    nor the distance of the record returned; the whole outcome (flag,
    record and material) is the same provided no two primitives report
    different records at the same distance. *)
Theorem scan_permutation_invariant
    (hitable : Type) (Hs : Hitable hitable)
    (Hxy : RectHitable xy_rect) (Hxz : RectHitable xz_rect)
    (Hyz : RectHitable yz_rect)
    (temp0 temp0' : hit_record) (tempm0 tempm0' : material_t)
    (r : ray) (min : R) (max : bound_t)
    (rec0 : hit_record) (m0 : material_t)
    (spheres spheres' : list hitable) (b b' : box) :
  Forall (fun s => interval_consistent t min (hit_query r min s)) spheres ->
  Forall (fun side => interval_consistent (fun o => t (fst o)) min
                        (side_query r min side)) (sides b) ->
  Permutation spheres spheres' ->
  Permutation (sides b) (sides b') ->
  (fst (hit_world temp0 r min max rec0 spheres)
   = fst (hit_world temp0' r min max rec0 spheres')
   /\ t (snd (hit_world temp0 r min max rec0 spheres))
      = t (snd (hit_world temp0' r min max rec0 spheres'))
   /\ (tie_free (hit_query r min) t max spheres ->
       hit_world temp0 r min max rec0 spheres
       = hit_world temp0' r min max rec0 spheres'))
  /\ (fst (fst (box_hit temp0 tempm0 b r min max rec0 m0))
      = fst (fst (box_hit temp0' tempm0' b' r min max rec0 m0))
      /\ t (snd (fst (box_hit temp0 tempm0 b r min max rec0 m0)))
         = t (snd (fst (box_hit temp0' tempm0' b' r min max rec0 m0)))
      /\ (tie_free (side_query r min) (fun o => t (fst o)) max (sides b) ->
          box_hit temp0 tempm0 b r min max rec0 m0
          = box_hit temp0' tempm0' b' r min max rec0 m0)).
Proof.
  intros Hsph Hsides Hp Hp'. split.
  - now apply hit_world_permutation.
  - now apply box_hit_permutation.
Qed.

(** C7 as stated fails, for both scans.  The unit box and the same box
    with one side moved to the front have the same sides, and the ray
    through the shared edge gets the normal of whichever side comes
    first; two spheres in the same place with different materials give
    the material of whichever comes first. *)
Lemma scan_order_changes_record :
  (Permutation (sides unit_box) (sides unit_box_reordered)
   /\ rect_box_hit blank_record Lambertian unit_box edge_ray (1/1000)
                   infinity blank_record Lambertian
      <> rect_box_hit blank_record Lambertian unit_box_reordered edge_ray
                      (1/1000) infinity blank_record Lambertian)
  /\ (Permutation [near_sphere; near_sphere_twin]
                  [near_sphere_twin; near_sphere]
      /\ sphere_hit_world blank_record down_ray (1/1000) infinity
                          blank_record [near_sphere; near_sphere_twin]
         <> sphere_hit_world blank_record down_ray (1/1000) infinity
                             blank_record [near_sphere_twin; near_sphere]).
Proof.
  split; split.
  - apply unit_box_reordered_permutation.
  - rewrite edge_hit_unit_box, edge_hit_unit_box_reordered.
    intros Heq. injection Heq as Heq _. lra.
  - apply perm_swap.
  - rewrite scan_twin_spheres, scan_twin_spheres_swapped.
    intros Heq. injection Heq as Heq. discriminate Heq.
Qed.

Lemma scan_permutation_invariant_witness :
  Permutation [far_sphere; near_sphere] [near_sphere; far_sphere]
  /\ Permutation (sides unit_box) (sides unit_box_reordered)
  /\ fst (sphere_hit_world blank_record edge_ray (1/1000) infinity
            blank_record [far_sphere; near_sphere])
     = fst (sphere_hit_world blank_record edge_ray (1/1000) infinity
              blank_record [near_sphere; far_sphere])
  /\ t (snd (fst (rect_box_hit blank_record Lambertian unit_box edge_ray
                    (1/1000) infinity blank_record Lambertian)))
     = t (snd (fst (rect_box_hit blank_record Lambertian unit_box_reordered
                      edge_ray (1/1000) infinity blank_record Lambertian))).
Proof.
  assert (Hp : Permutation [far_sphere; near_sphere]
                           [near_sphere; far_sphere]) by apply perm_swap.
  split; [exact Hp|].
  split; [apply unit_box_reordered_permutation|].
  destruct (scan_permutation_invariant sphere sphere_hit
              (xy_rect_hit 0) (xz_rect_hit 0) (yz_rect_hit 0)
              blank_record blank_record Lambertian Lambertian
              edge_ray (1/1000) infinity blank_record Lambertian
              [far_sphere; near_sphere] [near_sphere; far_sphere]
              unit_box unit_box_reordered) as ((Hflag & _) & (_ & Ht & _)).
  - apply Forall_forall. intros s _. apply sphere_hit_consistent.
  - apply Forall_forall. intros side _. apply rectangle_hit_consistent.
  - exact Hp.
  - apply unit_box_reordered_permutation.
  - split; [exact Hflag | exact Ht].
Defined.

(** ** The box constructor *)

Lemma box_new_surface (p0 p1 : point) (mat_type : material_t) (q : point) :
  x p0 <= x p1 -> y p0 <= y p1 -> z p0 <= z p1 ->
  (exists side, In side (sides (box_new p0 p1 mat_type)) /\ on_side side q)
  <-> on_surface p0 p1 q.
Proof.
  intros Hx Hy Hz. unfold on_surface, in_volume. simpl. split.
  - intros (side & Hin & Hon).
    repeat (destruct Hin as [<- | Hin]); try contradiction;
      simpl in Hon; destruct Hon as (Ha & Hb & ->); lra.
  - intros ((Hqx & Hqy & Hqz) & [E | [E | [E | [E | [E | E]]]]]).
    + exists (YZ (mk_yz_rect (y p0) (y p1) (z p0) (z p1) (x p0) mat_type)).
      simpl. tauto.
    + exists (YZ (mk_yz_rect (y p0) (y p1) (z p0) (z p1) (x p1) mat_type)).
      simpl. tauto.
    + exists (XZ (mk_xz_rect (x p0) (x p1) (z p0) (z p1) (y p0) mat_type)).
      simpl. tauto.
    + exists (XZ (mk_xz_rect (x p0) (x p1) (z p0) (z p1) (y p1) mat_type)).
      simpl. tauto.
    + exists (XY (mk_xy_rect (x p0) (x p1) (y p0) (y p1) (z p0) mat_type)).
      simpl. tauto.
    + exists (XY (mk_xy_rect (x p0) (x p1) (y p0) (y p1) (z p1) mat_type)).
      simpl. tauto.
Qed.

(** C9.  For corners [p0 <= p1] (componentwise) the constructor stores
    the corners and the material and creates exactly six sides: the
    xy-rectangles at [z = p0.z] and [z = p1.z], the xz-rectangles at
    [y = p0.y] and [y = p1.y], the yz-rectangles at [x = p0.x] and
    [x = p1.x], each over the extents of [[p0, p1]] and each with the
    box's material; the points of the six sides are exactly the surface
    of the volume between [box_min] and [box_max]. *)
Theorem box_new_six_sides (p0 p1 : point) (mat_type : material_t) :
  x p0 <= x p1 -> y p0 <= y p1 -> z p0 <= z p1 ->
  let b := box_new p0 p1 mat_type in
  box_min b = p0 /\ box_max b = p1 /\ material_type b = mat_type
  /\ length (sides b) = 6%nat
  /\ Permutation (sides b)
       [ XY (mk_xy_rect (x p0) (x p1) (y p0) (y p1) (z p0) mat_type);
         XY (mk_xy_rect (x p0) (x p1) (y p0) (y p1) (z p1) mat_type);
         XZ (mk_xz_rect (x p0) (x p1) (z p0) (z p1) (y p0) mat_type);
         XZ (mk_xz_rect (x p0) (x p1) (z p0) (z p1) (y p1) mat_type);
         YZ (mk_yz_rect (y p0) (y p1) (z p0) (z p1) (x p0) mat_type);
         YZ (mk_yz_rect (y p0) (y p1) (z p0) (z p1) (x p1) mat_type) ]
  /\ Forall (fun side => side_material side = material_type b) (sides b)
  /\ forall q : point,
       (exists side, In side (sides b) /\ on_side side q)
       <-> on_surface (box_min b) (box_max b) q.
Proof.
  intros Hx Hy Hz b.
  split; [reflexivity|]. split; [reflexivity|]. split; [reflexivity|].
  split; [reflexivity|]. split; [|split].
  - unfold b, box_new. simpl.
    apply (Permutation_trans (perm_swap _ _ _)).
    do 2 apply perm_skip.
    apply (Permutation_trans (perm_swap _ _ _)).
    do 2 apply perm_skip. apply perm_swap.
  - unfold b. simpl. repeat constructor.
  - intros q. apply box_new_surface; assumption.
Qed.

Lemma box_new_six_sides_witness :
  length (sides unit_box) = 6%nat
  /\ Forall (fun side => side_material side = Metal) (sides unit_box)
  /\ forall q : point,
       (exists side, In side (sides unit_box) /\ on_side side q)
       <-> on_surface zero3 (mk_vec3 1 1 1) q.
Proof.
  destruct (box_new_six_sides zero3 (mk_vec3 1 1 1) Metal)
    as (_ & _ & _ & Hlen & _ & Hmat & Hsurf); simpl; try lra.
  split; [exact Hlen|]. split; [exact Hmat | exact Hsurf].
Defined.

(** A hit the modelled rectangles accept lies on the side, when the
    threshold for parallel rays is not negative. *)
Lemma rectangle_hit_on_side (eps : R) (side : rectangle_t) (r : ray)
    (min : R) (max : bound_t) (rec rec' : hit_record) (m m' : material_t) :
  0 <= eps ->
  @visit_hit (xy_rect_hit eps) (xz_rect_hit eps) (yz_rect_hit eps)
    side r min max rec m = (true, rec', m') ->
  on_side side (p rec') /\ m' = side_material side.
Proof.
  intros Heps.
  destruct side as [s|s|s]; unfold visit_hit, rect_hit;
    [unfold xy_rect_hit | unfold xz_rect_hit | unfold yz_rect_hit];
    (destruct (Rle_dec _ eps) as [|Hd]; [discriminate|]);
    (destruct (inside _ _ _); simpl; [|discriminate]);
    (destruct (between _ _ _) eqn:E1; simpl; [|discriminate]);
    (destruct (between _ _ _) eqn:E2 in |- *; simpl; [|discriminate]);
    apply between_true in E1; apply between_true in E2;
    intros Heq; injection Heq as <- <-; simpl;
    (split; [|reflexivity]); (split; [exact E1|]); (split; [exact E2|]);
    field; intros Hz; rewrite Hz, Rabs_R0 in Hd; lra.
Qed.

(** ** The path integrator *)

Lemma vec3_eq (a b : vec3) :
  x a = x b -> y a = y b -> z a = z b -> a = b.
Proof. destruct a, b; simpl; intros -> -> ->; reflexivity. Qed.

Lemma unit_vector_up (k : R) :
  0 < k -> y (unit_vector (mk_vec3 0 k 0)) = 1.
Proof.
  intros Hk. unfold unit_vector, length3, dot. simpl.
  replace (0 * 0 + k * k + 0 * 0) with (k * k) by ring.
  rewrite sqrt_square by lra. field. lra.
Qed.

Lemma unit_vector_down (k : R) :
  k < 0 -> y (unit_vector (mk_vec3 0 k 0)) = -1.
Proof.
  intros Hk. unfold unit_vector, length3, dot. simpl.
  replace (0 * 0 + k * k + 0 * 0) with ((- k) * (- k)) by ring.
  rewrite sqrt_square by lra. field. lra.
Qed.

Lemma gradient_top : gradient 1 = sky_blue.
Proof. apply vec3_eq; simpl; lra. Qed.

Lemma gradient_bottom : gradient (-1) = white.
Proof. apply vec3_eq; simpl; lra. Qed.

(** The blend is affine in [d], between white at [-1] and sky blue at
    [1]. *)
Lemma gradient_linear (d : R) :
  gradient d
  = mk_vec3 (1 - (d + 1) / 4) (1 - 3 * (d + 1) / 20) 1.
Proof. apply vec3_eq; simpl; lra. Qed.

Section IntegratorFacts.
Context {rng : Type}.
Context {hitable : Type} `{Hitable hitable}.
Variable scatter_material :
  hit_record -> ray -> vec3 -> ray -> Rand rng (bool * vec3 * ray).
Variable uninit_rec : hit_record.
Variable spheres : list hitable.

Local Abbreviation scan r :=
  (hit_world uninit_rec r (1/1000) infinity uninit_rec spheres).
Local Abbreviation loop := (color_loop scatter_material uninit_rec spheres).

(** The three ways an iteration can go. *)
Lemma color_loop_escaped n r a sc g :
  fst (scan r) = false ->
  loop (S n) r a sc g = ((a * background r)%V, g).
Proof.
  intros Hmiss. simpl. destruct (scan r) as [h rec]. simpl in Hmiss.
  subst h. reflexivity.
Qed.

Lemma color_loop_absorbed n r a sc g rec a' s g' :
  scan r = (true, rec) ->
  scatter_material rec r a sc g = ((false, a', s), g') ->
  loop (S n) r a sc g = (black, g').
Proof.
  intros Hhit Hsc. simpl. rewrite Hhit. unfold bind. rewrite Hsc.
  reflexivity.
Qed.

Lemma color_loop_scattered n r a sc g rec a' s g' :
  scan r = (true, rec) ->
  scatter_material rec r a sc g = ((true, a', s), g') ->
  loop (S n) r a sc g = loop n s a' s g'.
Proof.
  intros Hhit Hsc. simpl. rewrite Hhit. unfold bind. rewrite Hsc.
  reflexivity.
Qed.

(** When every iteration scatters, the loop runs out and returns
    black. *)
Lemma color_loop_exhausted n : forall r a sc g,
  bounces scatter_material uninit_rec spheres n r a sc g ->
  fst (loop n r a sc g) = black.
Proof.
  induction n as [|n IH]; intros r a sc g Hb; [reflexivity|].
  destruct Hb as (rec & a' & s & g' & Hs & Hsc & Hb).
  rewrite (color_loop_scattered _ _ _ _ _ _ _ _ _ Hs Hsc). now apply IH.
Qed.
End IntegratorFacts.

Section IntegratorSpecFacts.
Context {rng : Type}.
Context {hitable : Type} `{Hitable hitable}.
Variable scatter : hit_record -> ray -> Rand rng (option (vec3 * ray)).
Variable uninit_rec : hit_record.
Variable spheres : list hitable.

Local Abbreviation scan r :=
  (hit_world uninit_rec r (1/1000) infinity uninit_rec spheres).
Local Abbreviation loop :=
  (color_loop (scatter_material_of scatter) uninit_rec spheres).

Lemma scatter_material_of_some rec r a sc g att s g' :
  scatter rec r g = (Some (att, s), g') ->
  scatter_material_of scatter rec r a sc g = ((true, (a * att)%V, s), g').
Proof. intros E. unfold scatter_material_of, bind. now rewrite E. Qed.

Lemma scatter_material_of_none rec r a sc g g' :
  scatter rec r g = (None, g') ->
  scatter_material_of scatter rec r a sc g = ((false, a, sc), g').
Proof. intros E. unfold scatter_material_of, bind. now rewrite E. Qed.

(** The loop follows a path of the specification, of at most [n]
    scans. *)
Lemma color_loop_path n : forall r a sc g,
  exists k, (k <= n)%nat
    /\ path scatter uninit_rec spheres n k r a g
            (fst (loop n r a sc g)) (snd (loop n r a sc g)).
Proof.
  induction n as [|n IH]; intros r a sc g.
  - exists 0%nat. split; [lia | constructor].
  - destruct (scan r) as [[|] rec] eqn:Hs.
    + destruct (scatter rec r g) as [[[att s]|] g'] eqn:Hsc.
      * rewrite (color_loop_scattered _ _ _ _ _ _ _ _ _ _ _ _ Hs
                   (scatter_material_of_some _ _ a sc _ _ _ _ Hsc)).
        destruct (IH s (a * att)%V s g') as (k & Hk & Hp).
        exists (S k). split; [lia|].
        eapply path_scattered; eassumption.
      * rewrite (color_loop_absorbed _ _ _ _ _ _ _ _ _ _ _ _ Hs
                   (scatter_material_of_none _ _ a sc _ _ Hsc)).
        exists 1%nat. split; [lia|].
        eapply path_absorbed; eassumption.
    + rewrite color_loop_escaped by (rewrite Hs; reflexivity).
      exists 1%nat. split; [lia|].
      apply path_escaped. rewrite Hs. reflexivity.
Qed.

(** A path of the specification determines what the loop returns. *)
Lemma path_color_loop n k r a g res g' :
  path scatter uninit_rec spheres n k r a g res g' ->
  forall sc, loop n r a sc g = (res, g').
Proof.
  induction 1 as [r a g | n r a g Hmiss | n r a g rec g' Hs Hsc
                 | n k r a g rec att s g' res g'' Hs Hsc Hp IH]; intros sc.
  - reflexivity.
  - now apply color_loop_escaped.
  - apply (color_loop_absorbed _ _ _ _ _ _ _ _ _ _ _ _ Hs
             (scatter_material_of_none _ _ a sc _ _ Hsc)).
  - rewrite (color_loop_scattered _ _ _ _ _ _ _ _ _ _ _ _ Hs
               (scatter_material_of_some _ _ a sc _ _ _ _ Hsc)).
    apply IH.
Qed.
End IntegratorSpecFacts.

(** ** Claims on the path integrator *)

(** C2.  For every camera ray and bounce count [D], [color], over a
    [scatter_material] that multiplies the running attenuation in place
    by the attenuation the material's scattering rule returns, follows a
    path of the specification that makes at most [D] scans: every scan is
    [hit_world] over [(0.001, +infinity)]; on a hit whose material
    scatters the running attenuation is multiplied by the returned
    attenuation and the scattered ray becomes the current ray; on a hit
    whose material absorbs the result is black at once; and the result
    of [color] is the only one such a path allows. *)
Theorem color_follows_spec_path
    (rng hitable : Type) (Hs : Hitable hitable)
    (scatter : hit_record -> ray -> Rand rng (option (vec3 * ray)))
    (uninit_rec : hit_record) (uninit_ray : ray)
    (spheres : list hitable) (r : ray) (D : Z) (g : rng) :
  (exists k, (k <= Z.to_nat D)%nat
     /\ path scatter uninit_rec spheres (Z.to_nat D) k r (mk_vec3 1 1 1) g
             (fst (color (scatter_material_of scatter) uninit_rec
                         uninit_ray r spheres D g))
             (snd (color (scatter_material_of scatter) uninit_rec
                         uninit_ray r spheres D g)))
  /\ forall k res g',
       path scatter uninit_rec spheres (Z.to_nat D) k r (mk_vec3 1 1 1) g
            res g' ->
       color (scatter_material_of scatter) uninit_rec uninit_ray r spheres
             D g = (res, g').
Proof.
  unfold color. split.
  - apply color_loop_path.
  - intros k res g' Hp. apply (path_color_loop _ _ _ _ _ _ _ _ _ _ Hp).
Qed.

(** C3.  If each of the [D] iterations finds a hit on which
    [scatter_material] returns true, so that the ray neither escapes nor
    is absorbed, [color] returns exactly black. *)
Theorem depth_exhausted_returns_black
    (rng hitable : Type) (Hs : Hitable hitable)
    (scatter_material :
       hit_record -> ray -> vec3 -> ray -> Rand rng (bool * vec3 * ray))
    (uninit_rec : hit_record) (uninit_ray : ray)
    (spheres : list hitable) (r : ray) (D : Z) (g : rng) :
  bounces scatter_material uninit_rec spheres (Z.to_nat D) r
          (mk_vec3 1 1 1) uninit_ray g ->
  fst (color scatter_material uninit_rec uninit_ray r spheres D g)
  = mk_vec3 0 0 0.
Proof. unfold color. apply color_loop_exhausted. Qed.

Lemma depth_exhausted_returns_black_witness :
  @bounces unit sphere sphere_hit half_material
     blank_record [far_sphere; near_sphere] (Z.to_nat 2) down_ray
     (mk_vec3 1 1 1) down_ray tt
  /\ fst (@color unit sphere sphere_hit half_material
            blank_record down_ray down_ray [far_sphere; near_sphere] 2 tt)
     = mk_vec3 0 0 0.
Proof.
  assert (Hb : @bounces unit sphere sphere_hit half_material blank_record
                 [far_sphere; near_sphere] (Z.to_nat 2) down_ray
                 (mk_vec3 1 1 1) down_ray tt).
  { change (Z.to_nat 2) with 2%nat.
    pose proof scan_two_spheres as Hscan.
    unfold sphere_hit_world in Hscan.
    eexists _, _, _, _.
    split; [exact Hscan|]. split; [reflexivity|].
    eexists _, _, _, _.
    split; [exact Hscan|]. split; [reflexivity | exact I]. }
  split; [exact Hb|].
  apply (depth_exhausted_returns_black unit sphere sphere_hit
           half_material blank_record down_ray
           [far_sphere; near_sphere] down_ray 2 tt Hb).
Defined.

(** C4.  When the scan of an iteration finds no hit, the integrator
    returns the running attenuation times the background: white and sky
    blue [(0.5, 0.7, 1.0)] blended linearly by [h = 0.5 * (d + 1)], [d]
    the y component of the normalised direction.  A ray along [+y] gets
    sky blue, a ray along [-y] gets white, and a camera ray that escapes
    at once returns the background itself (times the initial attenuation
    [(1, 1, 1)]) whenever the bounce count is positive. *)
Theorem escape_returns_background
    (rng hitable : Type) (Hs : Hitable hitable)
    (scatter_material :
       hit_record -> ray -> vec3 -> ray -> Rand rng (bool * vec3 * ray))
    (uninit_rec : hit_record) (uninit_ray : ray)
    (spheres : list hitable) (n : nat) (r : ray) (a : vec3) (sc : ray)
    (g : rng) :
  fst (hit_world uninit_rec r (1/1000) infinity uninit_rec spheres) = false ->
  let d := y (unit_vector (direction r)) in
  let h := 1/2 * (d + 1) in
  color_loop scatter_material uninit_rec spheres (S n) r a sc g
  = ((a * ((1 - h) *^ mk_vec3 1 1 1 + h *^ mk_vec3 (1/2) (7/10) 1))%V, g)
  /\ (forall k, 0 < k -> direction r = mk_vec3 0 k 0 ->
        color_loop scatter_material uninit_rec spheres (S n) r a sc g
        = ((a * mk_vec3 (1/2) (7/10) 1)%V, g))
  /\ (forall k, k < 0 -> direction r = mk_vec3 0 k 0 ->
        color_loop scatter_material uninit_rec spheres (S n) r a sc g
        = ((a * mk_vec3 1 1 1)%V, g))
  /\ (forall D, (0 < D)%Z ->
        color scatter_material uninit_rec uninit_ray r spheres D g
        = ((mk_vec3 1 1 1
            * ((1 - h) *^ mk_vec3 1 1 1 + h *^ mk_vec3 (1/2) (7/10) 1))%V,
           g)).
Proof.
  intros Hmiss d h.
  split; [now apply color_loop_escaped|].
  split; [|split].
  - intros k Hk Hdir. rewrite color_loop_escaped by assumption.
    unfold background. rewrite Hdir, unit_vector_up, gradient_top by assumption.
    reflexivity.
  - intros k Hk Hdir. rewrite color_loop_escaped by assumption.
    unfold background.
    rewrite Hdir, unit_vector_down, gradient_bottom by assumption.
    reflexivity.
  - intros D HD. unfold color.
    destruct (Z.to_nat D) as [|m] eqn:E; [lia|].
    now apply color_loop_escaped.
Qed.

Lemma escape_returns_background_witness :
  fst (@hit_world sphere sphere_hit blank_record up_ray (1/1000) infinity
         blank_record [far_sphere; near_sphere]) = false
  /\ @color_loop unit sphere sphere_hit half_material
       blank_record [far_sphere; near_sphere] 1 up_ray (mk_vec3 1 1 1)
       up_ray tt
     = ((mk_vec3 1 1 1 * mk_vec3 (1/2) (7/10) 1)%V, tt).
Proof.
  assert (Hmiss : fst (@hit_world sphere sphere_hit blank_record up_ray
                         (1/1000) infinity blank_record
                         [far_sphere; near_sphere]) = false).
  { pose proof scan_two_spheres_miss as Hscan.
    unfold sphere_hit_world in Hscan. rewrite Hscan. reflexivity. }
  split; [exact Hmiss|].
  destruct (escape_returns_background unit sphere sphere_hit
              half_material blank_record up_ray
              [far_sphere; near_sphere] 0 up_ray (mk_vec3 1 1 1) up_ray tt
              Hmiss) as (_ & Hup & _).
  apply (Hup 1); [lra | reflexivity].
Defined.

(** ** The pixel task *)

(** Distinct items write distinct cells. *)
Lemma pixel_index_injective (width x_ y_ x' y' : nat) :
  (x_ < width)%nat -> (x' < width)%nat ->
  (y' * width + x' = y_ * width + x_)%nat -> x' = x_ /\ y' = y_.
Proof.
  intros Hx Hx' Heq.
  assert (Hy : y' = y_) by nia. subst. split; [lia | reflexivity].
Qed.

Section KernelFacts.
Context {rng : Type}.
Context {hitable : Type} `{Hitable hitable}.
Variable scatter_material :
  hit_record -> ray -> vec3 -> ray -> Rand rng (bool * vec3 * ray).
Variable uninit_rec : hit_record.
Variable uninit_ray : ray.
Variable random_double : Rand rng R.
Variable random_in_unit_disk : Rand rng vec3.
Variables (width height samples : nat) (depth : Z).
Variable spheres : list hitable.

Local Abbreviation one_sample x_ y_ :=
  (sample_color scatter_material uninit_rec uninit_ray random_double
                random_in_unit_disk width height depth spheres x_ y_).
Local Abbreviation the_loop :=
  (sample_loop scatter_material uninit_rec uninit_ray random_double
               random_in_unit_disk width height depth spheres).

Lemma repeat_rand_length {A : Type} (m : Rand rng A) n : forall g,
  length (fst (repeat_rand n m g)) = n.
Proof.
  induction n as [|n IH]; intros g; [reflexivity|].
  cbn [repeat_rand]. unfold bind.
  destruct (m g) as [a g1]. specialize (IH g1).
  destruct (repeat_rand n m g1) as [l g2]. simpl in *. now rewrite IH.
Qed.

(** The loop adds, in order, the colours of [n] successive samples. *)
Lemma sample_loop_samples n x_ y_ : forall acc g,
  the_loop n x_ y_ acc g
  = (fold_left vadd (fst (repeat_rand n (one_sample x_ y_) g)) acc,
     snd (repeat_rand n (one_sample x_ y_) g)).
Proof.
  induction n as [|n IH]; intros acc g; [reflexivity|].
  cbn [sample_loop repeat_rand].
  unfold sample_color, jittered_uv, bind, ret.
  destruct (random_double g) as [ju g1].
  destruct (random_double g1) as [jv g2]. cbn [fst snd].
  destruct (get_ray random_in_unit_disk _ _ g2) as [r g3].
  destruct (color scatter_material uninit_rec uninit_ray r spheres depth g3)
    as [c g4].
  rewrite IH.
  destruct (repeat_rand n _ g4) as [l g5]. reflexivity.
Qed.

Lemma render_pixel_average x_ y_ frame g :
  render_pixel scatter_material uninit_rec uninit_ray random_double
               random_in_unit_disk width height samples depth spheres
               x_ y_ frame g
  = (<[(y_ * width + x_)%nat :=
         (vsum (fst (repeat_rand samples (one_sample x_ y_) g))
          /^ INR samples)%V]> frame,
     snd (repeat_rand samples (one_sample x_ y_) g)).
Proof.
  unfold render_pixel, bind, ret. rewrite sample_loop_samples. reflexivity.
Qed.

(** With draws in [[0, 1)] the jittered coordinates stay inside the
    pixel. *)
Lemma jittered_uv_in_pixel x_ y_ g :
  (0 < width)%nat -> (0 < height)%nat ->
  (forall g0, 0 <= fst (random_double g0) < 1) ->
  INR x_ / INR width
    <= fst (fst (jittered_uv random_double width height x_ y_ g))
    < (INR x_ + 1) / INR width
  /\ INR y_ / INR height
      <= snd (fst (jittered_uv random_double width height x_ y_ g))
      < (INR y_ + 1) / INR height.
Proof.
  intros Hw Hh Hrange. unfold jittered_uv, bind, ret.
  pose proof (Hrange g) as H1.
  destruct (random_double g) as [ju g1]. pose proof (Hrange g1) as H2.
  destruct (random_double g1) as [jv g2]. simpl in *.
  assert (0 < INR width) by (apply lt_0_INR; lia).
  assert (0 < INR height) by (apply lt_0_INR; lia).
  assert (0 < / INR width) by now apply Rinv_0_lt_compat.
  assert (0 < / INR height) by now apply Rinv_0_lt_compat.
  unfold Rdiv. repeat split; nra.
Qed.
End KernelFacts.

(** C5.  For the pixel [(x, y)] of a [width] by [height] frame, the
    pixel task draws [samples] samples one after the other, each with its
    own two draws of [random_double] as jitter (in [[0, 1)] when the
    generator's draws are, so that [u] and [v] stay within the pixel),
    [u = (x + jitter) / width], [v = (y + jitter) / height], a camera ray
    from [get_ray] and its colour from [color]; the colours are summed,
    the sum is divided by [samples] and written to the cell
    [y * width + x], which no other pixel of the frame writes; every
    other cell is left as it was. *)
Theorem pixel_task_averages_samples
    (rng hitable : Type) (Hs : Hitable hitable)
    (scatter_material :
       hit_record -> ray -> vec3 -> ray -> Rand rng (bool * vec3 * ray))
    (uninit_rec : hit_record) (uninit_ray : ray)
    (random_double : Rand rng R) (random_in_unit_disk : Rand rng vec3)
    (width height samples : nat) (depth : Z) (spheres : list hitable)
    (x_coord y_coord : nat) (frame : list vec3) (g : rng) :
  (x_coord < width)%nat -> (y_coord < height)%nat -> (0 < samples)%nat ->
  length frame = (width * height)%nat ->
  (forall g0, 0 <= fst (random_double g0) < 1) ->
  let res :=
    render_pixel scatter_material uninit_rec uninit_ray random_double
                 random_in_unit_disk width height samples depth spheres
                 x_coord y_coord frame g in
  let drawn :=
    repeat_rand samples
      (sample_color scatter_material uninit_rec uninit_ray random_double
                    random_in_unit_disk width height depth spheres
                    x_coord y_coord) g in
  length (fst drawn) = samples
  /\ fst res !! (y_coord * width + x_coord)%nat
     = Some (vsum (fst drawn) /^ INR samples)%V
  /\ (forall j, j <> (y_coord * width + x_coord)%nat ->
        fst res !! j = frame !! j)
  /\ length (fst res) = length frame
  /\ snd res = snd drawn
  /\ (forall g0,
        INR x_coord / INR width
          <= fst (fst (jittered_uv random_double width height
                                   x_coord y_coord g0))
          < (INR x_coord + 1) / INR width
        /\ INR y_coord / INR height
            <= snd (fst (jittered_uv random_double width height
                                     x_coord y_coord g0))
            < (INR y_coord + 1) / INR height)
  /\ (forall x' y', (x' < width)%nat -> (y' < height)%nat ->
        (y' * width + x' = y_coord * width + x_coord)%nat ->
        x' = x_coord /\ y' = y_coord).
Proof.
  intros Hx Hy _ Hlen Hrange res drawn.
  assert (Hidx : (y_coord * width + x_coord < length frame)%nat)
    by (rewrite Hlen; nia).
  unfold res. rewrite render_pixel_average. fold drawn. cbn [fst snd].
  split; [apply repeat_rand_length|].
  split; [now apply list_lookup_insert_eq|].
  split; [intros j Hj; now apply list_lookup_insert_ne|].
  split; [apply length_insert|].
  split; [reflexivity|].
  split.
  - intros g0. apply jittered_uv_in_pixel; [lia | lia | exact Hrange].
  - intros x' y' Hx' _ Heq.
    apply (pixel_index_injective width); assumption.
Qed.

Lemma pixel_task_averages_samples_witness :
  length [black; black; black; black] = (2 * 2)%nat
  /\ (forall g0 : unit, 0 <= fst (zero_jitter g0) < 1)
  /\ length (fst (@render_pixel unit sphere sphere_hit half_material
                    blank_record down_ray zero_jitter centre_disk
                    2 2 1 1 [far_sphere; near_sphere] 1 1
                    [black; black; black; black] tt))
     = 4%nat
  /\ forall j, j <> 3%nat ->
       fst (@render_pixel unit sphere sphere_hit half_material
              blank_record down_ray zero_jitter centre_disk
              2 2 1 1 [far_sphere; near_sphere] 1 1
              [black; black; black; black] tt) !! j
       = [black; black; black; black] !! j.
Proof.
  assert (Hrange : forall g0 : unit, 0 <= fst (zero_jitter g0) < 1)
    by (intros g0; simpl; lra).
  split; [reflexivity|]. split; [exact Hrange|].
  destruct (pixel_task_averages_samples unit sphere sphere_hit half_material
              blank_record down_ray zero_jitter centre_disk
              2 2 1 1 [far_sphere; near_sphere] 1 1
              [black; black; black; black] tt)
    as (_ & _ & Hother & Hlen & _);
    [lia | lia | lia | reflexivity | exact Hrange |].
  split; [exact Hlen | exact Hother].
Defined.

(** ** The image encoder *)
















(* ================================================================== *)
(** * Part III: further properties of the program *)
(* ================================================================== *)

(** ** More on the generic scan *)

Section ScanMore.
Context {P O : Type}.
Variable query : P -> bound_t -> O -> bool * O.
Variable t_of : O -> R.
Variable min : R.

Local Abbreviation consistent q := (interval_consistent t_of min (query q)).
Local Abbreviation scan := (scan_loop query t_of).

(** The flag the loop is entered with only adds to the result. *)
Lemma scan_loop_flag ps : forall tmp ha c out,
  scan ps tmp ha c out
  = (ha || fst (scan ps tmp false c out), snd (scan ps tmp false c out)).
Proof.
  induction ps as [|q rest IH]; intros tmp ha c out; simpl.
  - now rewrite orb_false_r.
  - destruct (query q c tmp) as [[|] tmp1].
    + rewrite (IH tmp1 true). now rewrite orb_true_r.
    + apply IH.
Qed.

(** Under the contract the record the loop is entered with is never
    looked at. *)
Lemma scan_loop_tmp_irrelevant ps : forall tmp tmp' ha c out,
  Forall (fun q => consistent q) ps ->
  scan ps tmp ha c out = scan ps tmp' ha c out.
Proof.
  induction ps as [|q rest IH]; intros tmp tmp' ha c out HF; [reflexivity|].
  pose proof (Forall_inv HF) as Hq. pose proof (Forall_inv_tail HF) as Hrest.
  simpl.
  destruct (query q c tmp) as [[|] t1] eqn:E1,
           (query q c tmp') as [[|] t2] eqn:E2.
  - rewrite (consistent_tmp _ _ _ _ _ _ tmp' _ Hq E1) in E2.
    injection E2 as <-. reflexivity.
  - rewrite (consistent_tmp _ _ _ _ _ _ tmp' _ Hq E1) in E2. discriminate.
  - rewrite (consistent_tmp _ _ _ _ _ _ tmp _ Hq E2) in E1. discriminate.
  - now apply IH.
Qed.

(** Scanning a concatenation is scanning the second part with the bound
    tightened to the hit of the first part, if there is one. *)
Lemma scan_loop_app l1 l2 : forall tmp tmp' ha c out,
  Forall (fun q => consistent q) l2 ->
  scan (l1 ++ l2) tmp ha c out
  = if fst (scan l1 tmp false c out)
    then (true,
          snd (scan l2 tmp' false
                 (Finite (t_of (snd (scan l1 tmp false c out))))
                 (snd (scan l1 tmp false c out))))
    else scan l2 tmp' ha c out.
Proof.
  induction l1 as [|q rest IH]; intros tmp tmp' ha c out HF; simpl.
  - now apply scan_loop_tmp_irrelevant.
  - destruct (query q c tmp) as [[|] t1].
    + rewrite (IH t1 tmp' true (Finite (t_of t1)) t1 HF).
      rewrite (scan_loop_flag rest t1 true). simpl.
      destruct (fst (scan rest t1 false (Finite (t_of t1)) t1)) eqn:E;
        [reflexivity|].
      rewrite (scan_loop_frame _ _ _ _ _ _ E).
      now rewrite (scan_loop_flag l2 tmp' true).
    + now apply IH.
Qed.

(** Nothing lies in front of the record the scan returns. *)
Lemma scan_rescan ps tmp tmp' max out out' :
  Forall (fun q => consistent q) ps ->
  fst (scan ps tmp false max out) = true ->
  fst (scan ps tmp' false
         (Finite (t_of (snd (scan ps tmp false max out)))) out') = false.
Proof.
  intros HF Hhit.
  destruct (scan_nearest query t_of min ps tmp max out HF)
    as (_ & Hnear & _).
  destruct (Hnear Hhit) as ((_ & Hup) & _ & Hmin).
  set (o := snd (scan ps tmp false max out)) in *.
  destruct (scan_nearest query t_of min ps tmp' (Finite (t_of o)) out' HF)
    as (Hiff & _ & _).
  destruct (fst (scan ps tmp' false (Finite (t_of o)) out')); [|reflexivity].
  destruct (proj1 Hiff eq_refl) as (q & o1 & Hin & tq & Hq).
  assert (Hqc : consistent q)
    by (rewrite Forall_forall in HF; apply HF, list_elem_of_In, Hin).
  destruct Hqc as (Ha & _ & Hc).
  destruct (Ha _ _ _ Hq) as [_ Hlt]. simpl in Hlt.
  destruct (Hc max (Finite (t_of o)) tq o1 (lt_le_bound _ _ Hup) Hq)
    as (o2 & Ho2 & Hle).
  assert (t_of o <= t_of o2) by (apply (Hmin q o2 Hin); now exists tq).
  lra.
Qed.

(** A member that reports nothing in the full interval can be taken out
    of the collection. *)
Lemma scan_drop_missed l1 q l2 tmp max out :
  Forall (fun q => consistent q) (l1 ++ q :: l2) ->
  (forall tq, fst (query q max tq) = false) ->
  scan (l1 ++ q :: l2) tmp false max out = scan (l1 ++ l2) tmp false max out.
Proof.
  intros HF Hmiss.
  apply Forall_app in HF. destruct HF as [HF1 HF2].
  pose proof (Forall_inv HF2) as Hq. pose proof (Forall_inv_tail HF2) as HF2'.
  rewrite (scan_loop_app l1 (q :: l2) tmp tmp false max out HF2).
  rewrite (scan_loop_app l1 l2 tmp tmp false max out HF2').
  assert (Hmiss' : forall c tq, le_bound c max -> fst (query q c tq) = false).
  { intros c tq Hc. destruct (query q c tq) as [[|] o'] eqn:E; [|reflexivity].
    destruct Hq as (_ & _ & Hw).
    destruct (Hw max c tq o' Hc E) as (o2 & Ho2 & _).
    specialize (Hmiss tq). rewrite Ho2 in Hmiss. discriminate. }
  destruct (fst (scan l1 tmp false max out)) eqn:E1.
  - destruct (scan_nearest query t_of min l1 tmp max out HF1)
      as (_ & Hnear & _).
    destruct (Hnear E1) as ((_ & Hup) & _).
    set (o := snd (scan l1 tmp false max out)) in *.
    simpl.
    specialize (Hmiss' (Finite (t_of o)) tmp (lt_le_bound _ _ Hup)).
    destruct (query q (Finite (t_of o)) tmp) as [[|] t1]; [discriminate|].
    now rewrite (scan_loop_tmp_irrelevant l2 t1 tmp).
  - simpl. specialize (Hmiss' max tmp (le_bound_refl max)).
    destruct (query q max tmp) as [[|] t1]; [discriminate|].
    now apply scan_loop_tmp_irrelevant.
Qed.
End ScanMore.

(** ** More on [hit_world] and [box::hit] *)

(** X1.  With intersection tests that meet the contract, the contents of
    the uninitialised locals [temp_rec] and [temp_material_type] never
    reach the result of [hit_world] or of [box::hit]. *)
Theorem scan_ignores_uninitialised_locals
    (hitable : Type) (Hs : Hitable hitable)
    (Hxy : RectHitable xy_rect) (Hxz : RectHitable xz_rect)
    (Hyz : RectHitable yz_rect)
    (temp0 temp0' : hit_record) (tempm0 tempm0' : material_t)
    (r : ray) (min : R) (max : bound_t)
    (rec0 : hit_record) (m0 : material_t)
    (spheres : list hitable) (b : box) :
  Forall (fun s => interval_consistent t min (hit_query r min s)) spheres ->
  Forall (fun side => interval_consistent (fun o => t (fst o)) min
                        (side_query r min side)) (sides b) ->
  hit_world temp0 r min max rec0 spheres
  = hit_world temp0' r min max rec0 spheres
  /\ box_hit temp0 tempm0 b r min max rec0 m0
     = box_hit temp0' tempm0' b r min max rec0 m0.
Proof.
  intros Hsph Hsides. split.
  - unfold hit_world. rewrite !hit_world_loop_scan.
    now apply (scan_loop_tmp_irrelevant _ _ min).
  - unfold box_hit. rewrite !box_hit_loop_scan.
    now rewrite (scan_loop_tmp_irrelevant _ _ min (sides b)
                   (temp0, tempm0) (temp0', tempm0')).
Qed.

Lemma scan_ignores_uninitialised_locals_witness :
  sphere_hit_world blank_record down_ray (1/1000) infinity blank_record
                   [far_sphere; near_sphere]
  = sphere_hit_world (sphere_record far_sphere up_ray 7) down_ray (1/1000)
                     infinity blank_record [far_sphere; near_sphere]
  /\ rect_box_hit blank_record Lambertian unit_box edge_ray (1/1000)
                  infinity blank_record Lambertian
     = rect_box_hit (sphere_record far_sphere up_ray 7) Metal unit_box
                    edge_ray (1/1000) infinity blank_record Lambertian.
Proof.
  split.
  - apply (scan_ignores_uninitialised_locals sphere sphere_hit
             (xy_rect_hit 0) (xz_rect_hit 0) (yz_rect_hit 0)
             blank_record (sphere_record far_sphere up_ray 7)
             Lambertian Metal down_ray (1/1000) infinity blank_record
             Lambertian [far_sphere; near_sphere] unit_box).
    + apply Forall_forall. intros s _. apply sphere_hit_consistent.
    + apply Forall_forall. intros side _. apply rectangle_hit_consistent.
  - apply (scan_ignores_uninitialised_locals sphere sphere_hit
             (xy_rect_hit 0) (xz_rect_hit 0) (yz_rect_hit 0)
             blank_record (sphere_record far_sphere up_ray 7)
             Lambertian Metal edge_ray (1/1000) infinity blank_record
             Lambertian [far_sphere; near_sphere] unit_box).
    + apply Forall_forall. intros s _. apply sphere_hit_consistent.
    + apply Forall_forall. intros side _. apply rectangle_hit_consistent.
Defined.

(** X2.  With intersection tests that meet the contract, a second scan
    whose upper bound is the distance of the record the first scan
    returned finds nothing: no primitive lies in front of the returned
    hit.  For [hit_world] and for [box::hit]. *)
Theorem nothing_in_front_of_returned_hit
    (hitable : Type) (Hs : Hitable hitable)
    (Hxy : RectHitable xy_rect) (Hxz : RectHitable xz_rect)
    (Hyz : RectHitable yz_rect)
    (temp0 temp0' : hit_record) (tempm0 tempm0' : material_t)
    (r : ray) (min : R) (max : bound_t)
    (rec0 rec1 : hit_record) (m0 m1 : material_t)
    (spheres : list hitable) (b : box) :
  Forall (fun s => interval_consistent t min (hit_query r min s)) spheres ->
  Forall (fun side => interval_consistent (fun o => t (fst o)) min
                        (side_query r min side)) (sides b) ->
  (fst (hit_world temp0 r min max rec0 spheres) = true ->
   hit_world temp0' r min
     (Finite (t (snd (hit_world temp0 r min max rec0 spheres))))
     rec1 spheres
   = (false, rec1))
  /\ (fst (fst (box_hit temp0 tempm0 b r min max rec0 m0)) = true ->
      box_hit temp0' tempm0' b r min
        (Finite (t (snd (fst (box_hit temp0 tempm0 b r min max rec0 m0)))))
        rec1 m1
      = (false, rec1, m1)).
Proof.
  intros Hsph Hsides. split.
  - intros Hhit.
    assert (Hf : fst (hit_world temp0' r min
                   (Finite (t (snd (hit_world temp0 r min max rec0 spheres))))
                   rec1 spheres) = false).
    { revert Hhit. unfold hit_world. rewrite !hit_world_loop_scan.
      now apply (scan_rescan _ _ min). }
    pose proof (hit_world_miss_frame r min _ rec1 temp0' spheres Hf) as Hs'.
    destruct (hit_world temp0' r min _ rec1 spheres) as [fl o].
    simpl in *. now subst.
  - intros Hhit. apply box_hit_miss_frame.
    revert Hhit. unfold box_hit. rewrite !box_hit_loop_scan. cbv beta.
    cbn [fst snd].
    apply (scan_rescan (side_query r min) (fun o => t (fst o)) min (sides b)
             (temp0, tempm0) (temp0', tempm0') max (rec0, m0) (rec1, m1)
             Hsides).
Qed.

Lemma nothing_in_front_of_returned_hit_witness :
  sphere_hit_world blank_record down_ray (1/1000) (Finite 1) blank_record
                   [far_sphere; near_sphere]
  = (false, blank_record)
  /\ rect_box_hit blank_record Lambertian unit_box edge_ray (1/1000)
                  (Finite 1) blank_record Lambertian
     = (false, blank_record, Lambertian).
Proof.
  destruct (nothing_in_front_of_returned_hit sphere sphere_hit
              (xy_rect_hit 0) (xz_rect_hit 0) (yz_rect_hit 0)
              blank_record blank_record Lambertian Lambertian
              down_ray (1/1000) infinity blank_record blank_record
              Lambertian Lambertian [far_sphere; near_sphere] unit_box)
    as (Hw & _).
  { apply Forall_forall. intros s _. apply sphere_hit_consistent. }
  { apply Forall_forall. intros side _. apply rectangle_hit_consistent. }
  destruct (nothing_in_front_of_returned_hit sphere sphere_hit
              (xy_rect_hit 0) (xz_rect_hit 0) (yz_rect_hit 0)
              blank_record blank_record Lambertian Lambertian
              edge_ray (1/1000) infinity blank_record blank_record
              Lambertian Lambertian [far_sphere; near_sphere] unit_box)
    as (_ & Hb).
  { apply Forall_forall. intros s _. apply sphere_hit_consistent. }
  { apply Forall_forall. intros side _. apply rectangle_hit_consistent. }
  pose proof scan_two_spheres as Es. pose proof edge_hit_unit_box as Eb.
  unfold sphere_hit_world, rect_box_hit in *.
  rewrite Es in Hw. rewrite Eb in Hb.
  split; [apply Hw | apply Hb]; reflexivity.
Defined.

(** X3.  [hit_world] over two arrays laid end to end is [hit_world] over
    the second one with the upper bound tightened to the hit of the
    first, or with the original bound when the first has no hit; the
    tests of the second array meet the contract. *)
Theorem hit_world_of_concatenation
    (hitable : Type) (Hs : Hitable hitable)
    (temp0 temp0' : hit_record) (r : ray) (min : R) (max : bound_t)
    (rec0 : hit_record) (l1 l2 : list hitable) :
  Forall (fun s => interval_consistent t min (hit_query r min s)) l2 ->
  hit_world temp0 r min max rec0 (l1 ++ l2)
  = if fst (hit_world temp0 r min max rec0 l1)
    then (true,
          snd (hit_world temp0' r min
                 (Finite (t (snd (hit_world temp0 r min max rec0 l1))))
                 (snd (hit_world temp0 r min max rec0 l1)) l2))
    else hit_world temp0' r min max rec0 l2.
Proof.
  intros HF. unfold hit_world. rewrite !hit_world_loop_scan.
  now apply (scan_loop_app _ _ min).
Qed.

Lemma hit_world_of_concatenation_witness :
  sphere_hit_world blank_record down_ray (1/1000) infinity blank_record
                   ([far_sphere] ++ [near_sphere])
  = (true,
     snd (sphere_hit_world blank_record down_ray (1/1000)
            (Finite (t (snd (sphere_hit_world blank_record down_ray
                               (1/1000) infinity blank_record
                               [far_sphere]))))
            (snd (sphere_hit_world blank_record down_ray (1/1000) infinity
                    blank_record [far_sphere]))
            [near_sphere])).
Proof.
  pose proof (hit_world_of_concatenation sphere sphere_hit blank_record
                blank_record down_ray (1/1000) infinity blank_record
                [far_sphere] [near_sphere]) as Happ.
  assert (Hfar : fst (sphere_hit_world blank_record down_ray (1/1000)
                        infinity blank_record [far_sphere]) = true).
  { unfold sphere_hit_world, hit_world.
    erewrite hit_world_loop_hit
      by (apply (sphere_hit_near_root far_sphere down_ray _ _ _ 1);
          unfold dot; simpl; try lra; exact I).
    reflexivity. }
  unfold sphere_hit_world in *. rewrite Hfar in Happ. apply Happ.
  apply Forall_forall. intros s _. apply sphere_hit_consistent.
Defined.

(** X4.  A primitive whose test reports nothing in the interval can be
    removed from the array without changing what [hit_world] returns;
    the tests meet the contract. *)
Theorem missed_primitive_can_be_removed
    (hitable : Type) (Hs : Hitable hitable)
    (temp0 : hit_record) (r : ray) (min : R) (max : bound_t)
    (rec0 : hit_record) (l1 l2 : list hitable) (s : hitable) :
  Forall (fun s => interval_consistent t min (hit_query r min s))
         (l1 ++ s :: l2) ->
  (forall tmp, fst (hit s r min max tmp) = false) ->
  hit_world temp0 r min max rec0 (l1 ++ s :: l2)
  = hit_world temp0 r min max rec0 (l1 ++ l2).
Proof.
  intros HF Hmiss. unfold hit_world. rewrite !hit_world_loop_scan.
  now apply (scan_drop_missed _ _ min).
Qed.

Lemma missed_primitive_can_be_removed_witness :
  sphere_hit_world blank_record down_ray (1/1000) infinity blank_record
                   ([far_sphere] ++ side_sphere :: [near_sphere])
  = sphere_hit_world blank_record down_ray (1/1000) infinity blank_record
                     ([far_sphere] ++ [near_sphere]).
Proof.
  apply (missed_primitive_can_be_removed sphere sphere_hit).
  - apply Forall_forall. intros s _. apply sphere_hit_consistent.
  - intros tmp. unfold hit.
    rewrite sphere_hit_misses by (unfold dot; simpl; lra). reflexivity.
Defined.

(** When the flag is set, the output is a record some member accepted. *)
Lemma scan_loop_output_hit {P O : Type}
    (query : P -> bound_t -> O -> bool * O) (t_of : O -> R) ps :
  forall tmp ha c out,
  (scan_loop query t_of ps tmp ha c out = (ha, out))
  \/ (fst (scan_loop query t_of ps tmp ha c out) = true
      /\ exists q c' tmp', In q ps
           /\ query q c' tmp'
              = (true, snd (scan_loop query t_of ps tmp ha c out))).
Proof.
  induction ps as [|q rest IH]; intros tmp ha c out; simpl; [now left|].
  destruct (query q c tmp) as [[|] tmp1] eqn:E.
  - right.
    destruct (IH tmp1 true (Finite (t_of tmp1)) tmp1)
      as [-> | (Hf & q' & c' & tmp' & Hin & Hq)].
    + split; [reflexivity|]. exists q, c, tmp. split; [now left | exact E].
    + split; [exact Hf|]. exists q', c', tmp'. split; [now right | exact Hq].
  - destruct (IH tmp1 ha c out) as [-> | (Hf & q' & c' & tmp' & Hin & Hq)];
      [now left | right].
    split; [exact Hf|]. exists q', c', tmp'. split; [now right | exact Hq].
Qed.

(** X5.  For corners [p0 <= p1] and rectangle tests that place an
    accepted hit on their rectangle and report their own material, a hit
    of [box::hit] on the box built from [p0], [p1] and a material lies
    on the surface of the volume [[p0, p1]] and carries that material. *)
Theorem box_hit_on_surface
    (Hxy : RectHitable xy_rect) (Hxz : RectHitable xz_rect)
    (Hyz : RectHitable yz_rect)
    (temp0 : hit_record) (tempm0 : material_t)
    (p0 p1 : point) (mat_type : material_t)
    (r : ray) (min : R) (max : bound_t)
    (rec0 : hit_record) (m0 : material_t) :
  x p0 <= x p1 -> y p0 <= y p1 -> z p0 <= z p1 ->
  (forall side c tr tm rec m,
     visit_hit side r min c tr tm = (true, rec, m) ->
     on_side side (p rec) /\ m = side_material side) ->
  fst (fst (box_hit temp0 tempm0 (box_new p0 p1 mat_type) r min max
                    rec0 m0)) = true ->
  on_surface p0 p1
    (p (snd (fst (box_hit temp0 tempm0 (box_new p0 p1 mat_type) r min max
                          rec0 m0))))
  /\ snd (box_hit temp0 tempm0 (box_new p0 p1 mat_type) r min max rec0 m0)
     = mat_type.
Proof.
  intros Hx Hy Hz Hsound. unfold box_hit. rewrite box_hit_loop_scan.
  cbv beta. cbn [fst snd].
  destruct (scan_loop_output_hit (side_query r min) (fun o => t (fst o))
              (sides (box_new p0 p1 mat_type)) (temp0, tempm0) false max
              (rec0, m0)) as [E | (_ & side & c & [tr tm] & Hin & Hq)].
  - rewrite E. discriminate.
  - intros _.
    destruct (scan_loop (side_query r min) (fun o => t (fst o))
                (sides (box_new p0 p1 mat_type)) (temp0, tempm0) false max
                (rec0, m0)) as [fl [rc mm]].
    cbn [fst snd] in *.
    unfold side_query in Hq. cbn [fst snd] in Hq.
    destruct (visit_hit side r min c tr tm) as [[b1 rc1] mm1] eqn:Ev.
    injection Hq as -> -> ->.
    destruct (Hsound _ _ _ _ _ _ Ev) as [Hon Hm].
    split.
    + apply (box_new_surface p0 p1 mat_type); try assumption.
      now exists side.
    + subst mm. simpl in Hin.
      repeat (destruct Hin as [<- | Hin]); try reflexivity; contradiction.
Qed.

Lemma box_hit_on_surface_witness :
  on_surface zero3 (mk_vec3 1 1 1)
    (p (snd (fst (rect_box_hit blank_record Lambertian unit_box edge_ray
                    (1/1000) infinity blank_record Lambertian))))
  /\ snd (rect_box_hit blank_record Lambertian unit_box edge_ray (1/1000)
            infinity blank_record Lambertian) = Metal.
Proof.
  apply (box_hit_on_surface (xy_rect_hit 0) (xz_rect_hit 0) (yz_rect_hit 0)
           blank_record Lambertian zero3 (mk_vec3 1 1 1) Metal edge_ray
           (1/1000) infinity blank_record Lambertian); simpl; try lra.
  - intros side c tr tm rec m Hv.
    apply (rectangle_hit_on_side 0 side edge_ray (1/1000) c tr rec tm m);
      [lra | exact Hv].
  - pose proof edge_hit_unit_box as E. unfold rect_box_hit, unit_box in E.
    rewrite E. reflexivity.
Defined.

(** ** More on [color] *)

Lemma unit_vector_y_range (v : vec3) : -1 <= y (unit_vector v) <= 1.
Proof.
  unfold unit_vector, length3. simpl.
  pose proof (dot_self_nonneg v) as Hd.
  pose proof (sqrt_pos (dot v v)) as Hs.
  destruct (Req_dec (sqrt (dot v v)) 0) as [E|E].
  - rewrite E. unfold Rdiv. rewrite Rinv_0. lra.
  - assert (Hpos : 0 < sqrt (dot v v)) by lra.
    assert (Hsq : sqrt (dot v v) * sqrt (dot v v) = dot v v)
      by now apply sqrt_sqrt.
    assert (Hy : y v * y v <= sqrt (dot v v) * sqrt (dot v v))
      by (rewrite Hsq; unfold dot; nra).
    assert (Hb : - sqrt (dot v v) <= y v <= sqrt (dot v v)) by nra.
    split.
    + apply (Rmult_le_reg_r (sqrt (dot v v))); [exact Hpos|].
      unfold Rdiv. rewrite Rmult_assoc, Rinv_l by exact E. lra.
    + apply (Rmult_le_reg_r (sqrt (dot v v))); [exact Hpos|].
      unfold Rdiv. rewrite Rmult_assoc, Rinv_l by exact E. lra.
Qed.

Lemma background_unit_color (r : ray) : unit_color (background r).
Proof.
  unfold background. pose proof (unit_vector_y_range (direction r)) as Hy.
  set (d := y (unit_vector (direction r))) in *.
  rewrite gradient_linear. unfold unit_color. simpl. lra.
Qed.

Lemma vmul_unit_color (a b : vec3) :
  unit_color a -> unit_color b -> unit_color (a * b)%V.
Proof. unfold unit_color. simpl. intros (?&?&?) (?&?&?). repeat split; nra. Qed.

Section IntegratorMore.
Context {rng : Type}.
Context {hitable : Type} `{Hitable hitable}.
Variable scatter_material :
  hit_record -> ray -> vec3 -> ray -> Rand rng (bool * vec3 * ray).
Variable uninit_rec : hit_record.
Variable spheres : list hitable.

Local Abbreviation scan r :=
  (hit_world uninit_rec r (1/1000) infinity uninit_rec spheres).
Local Abbreviation loop := (color_loop scatter_material uninit_rec spheres).

(** A path that ended before its iterations ran out is not changed by
    allowing more of them. *)
Lemma color_loop_more_depth n m : forall r a sc g,
  ~ bounces scatter_material uninit_rec spheres n r a sc g ->
  loop (n + m) r a sc g = loop n r a sc g.
Proof.
  induction n as [|n IH]; intros r a sc g Hnb; [exfalso; apply Hnb; exact I|].
  destruct (scan r) as [[|] rec] eqn:Hs.
  - destruct (scatter_material rec r a sc g) as [[[[|] a'] s] g'] eqn:Hsc.
    + change (S n + m)%nat with (S (n + m)).
      rewrite !(color_loop_scattered _ _ _ _ _ _ _ _ _ _ _ _ Hs Hsc).
      apply IH. intros Hb. apply Hnb. now exists rec, a', s, g'.
    + change (S n + m)%nat with (S (n + m)).
      now rewrite !(color_loop_absorbed _ _ _ _ _ _ _ _ _ _ _ _ Hs Hsc).
  - change (S n + m)%nat with (S (n + m)).
    rewrite !color_loop_escaped by (rewrite Hs; reflexivity). reflexivity.
Qed.

(** When [scatter_material] keeps attenuations in the unit cube, so does
    the loop keep its result. *)
Lemma color_loop_unit_color n : forall r a sc g,
  (forall rec r' a' sc' g', unit_color a' ->
     unit_color (snd (fst (fst (scatter_material rec r' a' sc' g'))))) ->
  unit_color a ->
  unit_color (fst (loop n r a sc g)).
Proof.
  induction n as [|n IH]; intros r a sc g Hmat Ha.
  - simpl. unfold unit_color. simpl. lra.
  - destruct (scan r) as [[|] rec] eqn:Hs.
    + pose proof (Hmat rec r a sc g Ha) as Ha'.
      destruct (scatter_material rec r a sc g) as [[[[|] a'] s] g'] eqn:Hsc.
      * rewrite (color_loop_scattered _ _ _ _ _ _ _ _ _ _ _ _ Hs Hsc).
        now apply IH.
      * rewrite (color_loop_absorbed _ _ _ _ _ _ _ _ _ _ _ _ Hs Hsc).
        unfold unit_color. simpl. lra.
    + rewrite color_loop_escaped by (rewrite Hs; reflexivity).
      simpl. apply vmul_unit_color; [exact Ha | apply background_unit_color].
Qed.
End IntegratorMore.

(** X6.  Raising the bounce count changes nothing for a camera ray whose
    path ends (by escape or absorption) within the smaller count: only
    paths on which every iteration scatters depend on [max_depth]. *)
Theorem color_stable_in_depth
    (rng hitable : Type) (Hs : Hitable hitable)
    (scatter_material :
       hit_record -> ray -> vec3 -> ray -> Rand rng (bool * vec3 * ray))
    (uninit_rec : hit_record) (uninit_ray : ray)
    (spheres : list hitable) (r : ray) (D D' : Z) (g : rng) :
  (D <= D')%Z ->
  ~ bounces scatter_material uninit_rec spheres (Z.to_nat D) r
            (mk_vec3 1 1 1) uninit_ray g ->
  color scatter_material uninit_rec uninit_ray r spheres D' g
  = color scatter_material uninit_rec uninit_ray r spheres D g.
Proof.
  intros HD Hnb. unfold color.
  replace (Z.to_nat D') with (Z.to_nat D + (Z.to_nat D' - Z.to_nat D))%nat
    by lia.
  now apply color_loop_more_depth.
Qed.

Lemma color_stable_in_depth_witness :
  @color unit sphere sphere_hit half_material blank_record up_ray up_ray
     [far_sphere; near_sphere] 5 tt
  = @color unit sphere sphere_hit half_material blank_record up_ray up_ray
      [far_sphere; near_sphere] 1 tt.
Proof.
  apply (color_stable_in_depth unit sphere sphere_hit half_material
           blank_record up_ray [far_sphere; near_sphere] up_ray 1 5 tt).
  - lia.
  - change (Z.to_nat 1) with 1%nat.
    intros (rec & a' & s & g' & Hhit & _).
    pose proof scan_two_spheres_miss as Hmiss.
    unfold sphere_hit_world in Hmiss. rewrite Hmiss in Hhit. discriminate.
Defined.

(** X7.  When [scatter_material] keeps an attenuation with components in
    [[0, 1]] within [[0, 1]], every component of the colour [color]
    returns lies in [[0, 1]]. *)
Theorem color_in_unit_cube
    (rng hitable : Type) (Hs : Hitable hitable)
    (scatter_material :
       hit_record -> ray -> vec3 -> ray -> Rand rng (bool * vec3 * ray))
    (uninit_rec : hit_record) (uninit_ray : ray)
    (spheres : list hitable) (r : ray) (D : Z) (g : rng) :
  (forall rec r' a' sc' g', unit_color a' ->
     unit_color (snd (fst (fst (scatter_material rec r' a' sc' g'))))) ->
  unit_color (fst (color scatter_material uninit_rec uninit_ray r spheres
                         D g)).
Proof.
  intros Hmat. unfold color. apply color_loop_unit_color; [exact Hmat|].
  unfold unit_color. simpl. lra.
Qed.

Lemma half_material_unit_color (rec : hit_record) (r : ray) (a : vec3)
    (sc : ray) (g : unit) :
  unit_color a ->
  unit_color (snd (fst (fst (half_material rec r a sc g)))).
Proof.
  unfold unit_color. simpl. intros (?&?&?). repeat split; lra.
Qed.

Lemma color_in_unit_cube_witness :
  unit_color (fst (@color unit sphere sphere_hit half_material blank_record
                     down_ray down_ray [far_sphere; near_sphere] 3 tt)).
Proof.
  apply (color_in_unit_cube unit sphere sphere_hit half_material).
  intros rec r' a' sc' g'. apply half_material_unit_color.
Defined.

(** ** More on the pixel task and the camera *)

Lemma fold_left_vadd_bounds (cs : list vec3) : forall acc,
  Forall unit_color cs ->
  (x acc <= x (fold_left vadd cs acc) <= x acc + INR (length cs))
  /\ (y acc <= y (fold_left vadd cs acc) <= y acc + INR (length cs))
  /\ (z acc <= z (fold_left vadd cs acc) <= z acc + INR (length cs)).
Proof.
  induction cs as [|c cs IH]; intros acc HF.
  - simpl. lra.
  - pose proof (Forall_inv HF) as (Hx & Hy & Hz).
    specialize (IH (acc + c)%V (Forall_inv_tail HF)).
    cbn [fold_left length]. rewrite S_INR. simpl in IH. lra.
Qed.

Lemma repeat_rand_Forall {rng A : Type} (Q : A -> Prop) (m : Rand rng A) n :
  (forall g, Q (fst (m g))) ->
  forall g, Forall Q (fst (repeat_rand n m g)).
Proof.
  intros Hm. induction n as [|n IH]; intros g; [constructor|].
  cbn [repeat_rand]. unfold bind.
  pose proof (Hm g) as Hg. destruct (m g) as [a g1].
  specialize (IH g1). destruct (repeat_rand n m g1) as [l g2].
  simpl in *. now constructor.
Qed.

Lemma average_unit_color (cs : list vec3) :
  cs <> [] -> Forall unit_color cs ->
  unit_color (vsum cs /^ INR (length cs))%V.
Proof.
  intros Hne HF.
  destruct (fold_left_vadd_bounds cs (mk_vec3 0 0 0) HF) as (Hx & Hy & Hz).
  assert (Hn : 0 < INR (length cs)).
  { apply lt_0_INR. destruct cs; [contradiction | simpl; lia]. }
  assert (Hi : 0 < / INR (length cs)) by now apply Rinv_0_lt_compat.
  assert (Hone : INR (length cs) * / INR (length cs) = 1)
    by (apply Rinv_r; lra).
  unfold unit_color, vsum. simpl in *. unfold Rdiv.
  repeat split; nra.
Qed.

(** X8.  With at least one sample, and a [scatter_material] that keeps
    attenuations within [[0, 1]], the colour the pixel task writes to its
    cell has every component in [[0, 1]]. *)
Theorem pixel_average_in_unit_cube
    (rng hitable : Type) (Hs : Hitable hitable)
    (scatter_material :
       hit_record -> ray -> vec3 -> ray -> Rand rng (bool * vec3 * ray))
    (uninit_rec : hit_record) (uninit_ray : ray)
    (random_double : Rand rng R) (random_in_unit_disk : Rand rng vec3)
    (width height samples : nat) (depth : Z) (spheres : list hitable)
    (x_coord y_coord : nat) (frame : list vec3) (g : rng) :
  (0 < samples)%nat ->
  (x_coord < width)%nat -> (y_coord < height)%nat ->
  length frame = (width * height)%nat ->
  (forall rec r' a' sc' g', unit_color a' ->
     unit_color (snd (fst (fst (scatter_material rec r' a' sc' g'))))) ->
  exists c,
    fst (render_pixel scatter_material uninit_rec uninit_ray random_double
           random_in_unit_disk width height samples depth spheres
           x_coord y_coord frame g) !! (y_coord * width + x_coord)%nat
    = Some c
    /\ unit_color c.
Proof.
  intros Hsamples Hx Hy Hlen Hmat.
  rewrite render_pixel_average. cbn [fst].
  eexists. split.
  - apply list_lookup_insert_eq. rewrite Hlen. nia.
  - set (cs := fst (repeat_rand samples _ g)).
    assert (Hl : length cs = samples) by apply repeat_rand_length.
    rewrite <- Hl. apply average_unit_color.
    + intros E. rewrite E in Hl. simpl in Hl. lia.
    + apply repeat_rand_Forall. intros g0.
      unfold sample_color, jittered_uv, bind, ret.
      destruct (random_double g0) as [ju g1].
      destruct (random_double g1) as [jv g2]. cbn [fst snd].
      destruct (get_ray random_in_unit_disk _ _ g2) as [r0 g3].
      unfold color. apply color_loop_unit_color; [exact Hmat|].
      unfold unit_color. simpl. lra.
Qed.

Lemma pixel_average_in_unit_cube_witness :
  exists c,
    fst (@render_pixel unit sphere sphere_hit half_material blank_record
           down_ray zero_jitter centre_disk 2 2 3 4
           [far_sphere; near_sphere] 1 0 [black; black; black; black] tt)
      !! 1%nat = Some c
    /\ unit_color c.
Proof.
  apply (pixel_average_in_unit_cube unit sphere sphere_hit half_material
           blank_record down_ray zero_jitter centre_disk 2 2 3 4
           [far_sphere; near_sphere] 1 0 [black; black; black; black] tt);
    try lia; try reflexivity.
  intros rec r' a' sc' g'. apply half_material_unit_color.
Defined.

Lemma dot_cross_l (a b : vec3) : dot (cross a b) a = 0.
Proof. unfold dot, cross. simpl. ring. Qed.

Lemma dot_cross_r (a b : vec3) : dot (cross a b) b = 0.
Proof. unfold dot, cross. simpl. ring. Qed.

Lemma dot_cross_self (a b : vec3) :
  dot (cross a b) (cross a b) = dot a a * dot b b - dot a b * dot a b.
Proof. unfold dot, cross. simpl. ring. Qed.

Lemma dot_comm (a b : vec3) : dot a b = dot b a.
Proof. unfold dot. ring. Qed.

Lemma dot_unit_vector_l (a b : vec3) :
  dot (unit_vector a) b = dot a b / length3 a.
Proof. unfold unit_vector, dot, vdiv. simpl. unfold Rdiv. ring. Qed.

Lemma dot_unit_vector_self (a : vec3) :
  0 < dot a a -> dot (unit_vector a) (unit_vector a) = 1.
Proof.
  intros Ha. rewrite dot_unit_vector_l, dot_comm, dot_unit_vector_l.
  unfold length3.
  assert (Hs : sqrt (dot a a) * sqrt (dot a a) = dot a a)
    by (apply sqrt_sqrt; lra).
  assert (Hp : 0 < sqrt (dot a a)) by (apply sqrt_lt_R0; lra).
  field_simplify; [|lra].
  replace (sqrt (dot a a) ^ 2) with (dot a a) by (simpl; lra).
  field. lra.
Qed.

(** [get_ray] in terms of the camera frame. *)
Lemma get_ray_frame {rng : Type} (rd : Rand rng vec3) (s t : R) (g : rng) :
  get_ray rd s t g
  = (let horizontal := ((10 * viewport_width) *^ camera_u)%V in
     let vertical := ((10 * viewport_height) *^ camera_v)%V in
     let lower_left_corner :=
       (look_from - horizontal /^ 2 - vertical /^ 2 - 10 *^ camera_w)%V in
     let lens := ((1/10/2) *^ fst (rd g))%V in
     let offset := (x lens *^ camera_u + y lens *^ camera_v)%V in
     (mk_ray (look_from + offset)%V
             (lower_left_corner + s *^ horizontal + t *^ vertical
              - look_from - offset)%V,
      snd (rd g))).
Proof.
  unfold get_ray, bind, ret. destruct (rd g) as [d g1]. reflexivity.
Qed.

Lemma camera_w_unit : dot camera_w camera_w = 1.
Proof. apply dot_unit_vector_self. unfold dot, look_from. simpl. lra. Qed.

Lemma camera_w_look_from : camera_w = ((/ sqrt 182) *^ look_from)%V.
Proof.
  unfold camera_w, unit_vector, length3, dot, look_from. simpl.
  replace ((13 - 0) * (13 - 0) + (2 - 0) * (2 - 0) + (3 - 0) * (3 - 0))
    with 182 by lra.
  apply vec3_eq; simpl; unfold Rdiv; ring.
Qed.

Lemma camera_u_unit : dot camera_u camera_u = 1.
Proof.
  apply dot_unit_vector_self. rewrite dot_cross_self.
  rewrite camera_w_unit. rewrite camera_w_look_from.
  unfold dot, look_from. simpl.
  assert (Hs : sqrt 182 * sqrt 182 = 182) by (apply sqrt_sqrt; lra).
  assert (Hp : 0 < sqrt 182) by (apply sqrt_lt_R0; lra).
  assert (Hi : / sqrt 182 * / sqrt 182 = / 182).
  { rewrite <- Rinv_mult. now rewrite Hs. }
  nra.
Qed.

Lemma camera_u_w : dot camera_u camera_w = 0.
Proof.
  unfold camera_u. rewrite dot_unit_vector_l, dot_cross_r.
  unfold Rdiv. ring.
Qed.

Lemma camera_v_w : dot camera_v camera_w = 0.
Proof. apply dot_cross_l. Qed.

Lemma camera_v_u : dot camera_v camera_u = 0.
Proof. apply dot_cross_r. Qed.

Lemma camera_v_unit : dot camera_v camera_v = 1.
Proof.
  unfold camera_v.
  rewrite dot_cross_self, camera_w_unit, camera_u_unit,
    (dot_comm camera_w), camera_u_w.
  ring.
Qed.

(** [a x (b x a) = b (a . a) - a (a . b)]. *)
Lemma cross_cross (a b : vec3) :
  cross a (cross b a) = (dot a a *^ b - dot a b *^ a)%V.
Proof. apply vec3_eq; unfold cross, dot; simpl; ring. Qed.

(** X9.  The frame [u], [v], [w] that [get_ray] builds from its
    constants is orthonormal and right-handed. *)
Theorem camera_frame_orthonormal :
  dot camera_u camera_u = 1 /\ dot camera_v camera_v = 1
  /\ dot camera_w camera_w = 1
  /\ dot camera_u camera_v = 0 /\ dot camera_v camera_w = 0
  /\ dot camera_w camera_u = 0
  /\ cross camera_u camera_v = camera_w.
Proof.
  split; [apply camera_u_unit|]. split; [apply camera_v_unit|].
  split; [apply camera_w_unit|].
  split; [rewrite dot_comm; apply camera_v_u|].
  split; [apply camera_v_w|].
  split; [rewrite dot_comm; apply camera_u_w|].
  unfold camera_v. rewrite cross_cross, camera_u_unit, camera_u_w.
  apply vec3_eq; simpl; ring.
Qed.

(** X10.  Whatever the lens sample, the ray [get_ray(s, t)] returns
    passes at parameter 1 through the same point of the focal plane,
    [look_from - 10 w + (s - 1/2) horizontal + (t - 1/2) vertical], ten
    units in front of the eye; for [s = t = 1/2] that point lies on the
    line from the eye to the world origin. *)
Theorem get_ray_focal_point
    (rng rng' : Type) (rd : Rand rng vec3) (rd' : Rand rng' vec3)
    (s t : R) (g : rng) (g' : rng') :
  ray_at (fst (get_ray rd s t g)) 1
  = (look_from - 10 *^ camera_w
     + ((s - 1/2) * (10 * viewport_width)) *^ camera_u
     + ((t - 1/2) * (10 * viewport_height)) *^ camera_v)%V
  /\ ray_at (fst (get_ray rd s t g)) 1 = ray_at (fst (get_ray rd' s t g')) 1
  /\ dot (ray_at (fst (get_ray rd s t g)) 1 - look_from)%V camera_w = -10
  /\ ray_at (fst (get_ray rd (1/2) (1/2) g)) 1
     = ((1 - 10 / sqrt 182) *^ look_from)%V.
Proof.
  assert (Hpt : forall (G : Type) (d : Rand G vec3) (s0 t0 : R) (g0 : G),
            ray_at (fst (get_ray d s0 t0 g0)) 1
            = (look_from - 10 *^ camera_w
               + ((s0 - 1/2) * (10 * viewport_width)) *^ camera_u
               + ((t0 - 1/2) * (10 * viewport_height)) *^ camera_v)%V).
  { intros G d s0 t0 g0. rewrite get_ray_frame. cbv zeta. unfold ray_at.
    cbn [fst origin direction].
    generalize (fst (d g0)) look_from camera_u camera_v camera_w
               viewport_width viewport_height.
    intros l e u v w vw vh. apply vec3_eq; simpl; field. }
  split; [apply Hpt|]. split; [now rewrite !Hpt|]. split.
  - rewrite Hpt.
    replace (dot (look_from - 10 *^ camera_w
                  + ((s - 1/2) * (10 * viewport_width)) *^ camera_u
                  + ((t - 1/2) * (10 * viewport_height)) *^ camera_v
                  - look_from)%V camera_w)
      with (- 10 * dot camera_w camera_w
            + (s - 1/2) * (10 * viewport_width) * dot camera_u camera_w
            + (t - 1/2) * (10 * viewport_height) * dot camera_v camera_w).
    + rewrite camera_w_unit, camera_u_w, camera_v_w. ring.
    + generalize look_from camera_u camera_v camera_w
                 viewport_width viewport_height.
      intros e u v w vw vh. unfold dot. simpl. ring.
  - rewrite Hpt, camera_w_look_from.
    generalize look_from camera_u camera_v viewport_width viewport_height
               (sqrt 182).
    intros e u v vw vh l. apply vec3_eq; simpl; unfold Rdiv; ring.
Qed.

(** X11.  The origin of the ray [get_ray] returns lies in the plane
    through the eye perpendicular to the viewing direction, at a
    distance from the eye of one twentieth of the length of the lens
    sample's [(x, y)]: within the lens radius [0.05] when the sample is
    in the unit disk.  The call draws exactly one lens sample. *)
Theorem get_ray_origin_on_lens
    (rng : Type) (rd : Rand rng vec3) (s t : R) (g : rng) :
  let d := fst (rd g) in
  let r := fst (get_ray rd s t g) in
  dot (origin r - look_from)%V camera_w = 0
  /\ dot (origin r - look_from)%V (origin r - look_from)%V
     = (1/20) * (1/20) * (x d * x d + y d * y d)
  /\ (x d * x d + y d * y d <= 1 ->
      dot (origin r - look_from)%V (origin r - look_from)%V
      <= (1/20) * (1/20))
  /\ snd (get_ray rd s t g) = snd (rd g).
Proof.
  intros d r. unfold r. rewrite get_ray_frame. cbv zeta.
  cbn [fst snd origin]. fold d.
  pose proof camera_w_unit as Hw. pose proof camera_u_w as Huw.
  pose proof camera_v_w as Hvw. pose proof camera_u_unit as Hu.
  pose proof camera_v_unit as Hv. pose proof camera_v_u as Hvu.
  set (a := 1/10/2 * x d). set (b := 1/10/2 * y d).
  assert (Hoff : (look_from
                  + (x ((1/10/2) *^ d) *^ camera_u
                     + y ((1/10/2) *^ d) *^ camera_v) - look_from)%V
                 = (a *^ camera_u + b *^ camera_v)%V).
  { unfold a, b. generalize look_from camera_u camera_v. intros e u v.
    apply vec3_eq; simpl; ring. }
  rewrite Hoff.
  assert (H1 : dot (a *^ camera_u + b *^ camera_v)%V camera_w = 0).
  { replace (dot (a *^ camera_u + b *^ camera_v)%V camera_w)
      with (a * dot camera_u camera_w + b * dot camera_v camera_w)
      by (generalize camera_u camera_v camera_w; intros u v w;
          unfold dot; simpl; ring).
    rewrite Huw, Hvw. ring. }
  assert (H2 : dot (a *^ camera_u + b *^ camera_v)%V
                   (a *^ camera_u + b *^ camera_v)%V
               = (1/20) * (1/20) * (x d * x d + y d * y d)).
  { replace (dot (a *^ camera_u + b *^ camera_v)%V
                 (a *^ camera_u + b *^ camera_v)%V)
      with (a * a * dot camera_u camera_u
            + 2 * a * b * dot camera_v camera_u
            + b * b * dot camera_v camera_v)
      by (generalize camera_u camera_v; intros u v;
          unfold dot; simpl; ring).
    rewrite Hu, Hv, Hvu. unfold a, b. field. }
  split; [exact H1|]. split; [exact H2|]. split; [|reflexivity].
  intros Hdisk. rewrite H2. nra.
Qed.

(** ** More on the image encoder *)






(** ** [render] *)

Lemma index_space_In (width height x_ y_ : nat) :
  In (x_, y_) (index_space width height)
  <-> (x_ < width)%nat /\ (y_ < height)%nat.
Proof.
  unfold index_space. rewrite in_flat_map. split.
  - intros (y0 & Hy & Hin). apply in_map_iff in Hin.
    destruct Hin as (x0 & E & Hx). injection E as <- <-.
    apply in_seq in Hy. apply in_seq in Hx. lia.
  - intros [Hx Hy]. exists y_. split; [apply in_seq; lia|].
    apply in_map_iff. exists x_. split; [reflexivity | apply in_seq; lia].
Qed.

Section RenderFacts.
Context {rng : Type}.
Context {hitable : Type} `{Hitable hitable}.
Variable scatter_material :
  hit_record -> ray -> vec3 -> ray -> Rand rng (bool * vec3 * ray).
Variable uninit_rec : hit_record.
Variable uninit_ray : ray.
Variable random_double : Rand rng R.
Variable random_in_unit_disk : Rand rng vec3.
Variables (width height samples num_spheres : nat).
Variable spheres : list hitable.

Local Abbreviation run :=
  (run_items scatter_material uninit_rec uninit_ray random_double
             random_in_unit_disk width height samples num_spheres spheres).
Local Abbreviation covered := (written width).

Lemma run_items_length items : forall frame g,
  length (fst (run items frame g)) = length frame.
Proof.
  induction items as [|[x_ y_] rest IH]; intros frame g; [reflexivity|].
  cbn [run_items]. unfold bind. rewrite render_pixel_average.
  rewrite IH. apply length_insert.
Qed.

(** Two frames that differ only in cells the items write end up equal,
    and so does the generator. *)
Lemma run_items_overwrites items : forall frame frame' g,
  length frame = length frame' ->
  (forall j, covered items j \/ frame !! j = frame' !! j) ->
  run items frame g = run items frame' g.
Proof.
  induction items as [|[x_ y_] rest IH]; intros frame frame' g Hlen Hagree.
  - simpl. unfold ret. f_equal. apply list_eq. intros j.
    destruct (Hagree j) as [(x_ & y_ & [] & _) | E]. exact E.
  - cbn [run_items]. unfold bind. rewrite !render_pixel_average.
    apply IH; [now rewrite !length_insert|].
    intros j. destruct (Nat.eq_dec j (y_ * width + x_)%nat) as [->|Hne].
    + right. destruct (Nat.lt_ge_cases (y_ * width + x_)%nat (length frame))
        as [Hin|Hout].
      * rewrite !list_lookup_insert_eq by lia. reflexivity.
      * rewrite !list_insert_ge by lia.
        rewrite !lookup_ge_None_2 by lia. reflexivity.
    + destruct (Hagree j) as [(x0 & y0 & [E | Hin] & Hj) | E].
      * injection E as <- <-. contradiction.
      * left. now exists x0, y0.
      * right. rewrite !list_lookup_insert_ne by congruence. exact E.
Qed.

(** When the material keeps attenuations in the unit cube, the cells the
    items write hold colours of the unit cube. *)
Lemma run_items_unit_color items : forall frame g,
  (0 < samples)%nat ->
  (forall rec r' a' sc' g', unit_color a' ->
     unit_color (snd (fst (fst (scatter_material rec r' a' sc' g'))))) ->
  (forall j c, frame !! j = Some c -> covered items j \/ unit_color c) ->
  Forall unit_color (fst (run items frame g)).
Proof.
  induction items as [|[x_ y_] rest IH]; intros frame g Hs Hmat Hinit.
  - simpl. apply Forall_forall. intros c Hc.
    apply list_elem_of_lookup in Hc. destruct Hc as [j Hj].
    destruct (Hinit j c Hj) as [(x_ & y_ & [] & _) | Hu]. exact Hu.
  - cbn [run_items]. unfold bind. rewrite render_pixel_average.
    apply IH; [exact Hs | exact Hmat |].
    intros j c Hj.
    destruct (Nat.eq_dec j (y_ * width + x_)%nat) as [->|Hne].
    + right.
      assert (Hin : (y_ * width + x_ < length frame)%nat).
      { apply lookup_lt_Some in Hj. now rewrite length_insert in Hj. }
      rewrite list_lookup_insert_eq in Hj by exact Hin.
      injection Hj as <-.
      set (cs := fst (repeat_rand samples _ g)).
      assert (Hl : length cs = samples) by apply repeat_rand_length.
      rewrite <- Hl. apply average_unit_color.
      * intros E. rewrite E in Hl. simpl in Hl. lia.
      * apply repeat_rand_Forall. intros g0.
        unfold sample_color, jittered_uv, bind, ret.
        destruct (random_double g0) as [ju g1].
        destruct (random_double g1) as [jv g2]. cbn [fst snd].
        destruct (get_ray random_in_unit_disk _ _ g2) as [r0 g3].
        unfold color. apply color_loop_unit_color; [exact Hmat|].
        unfold unit_color. simpl. lra.
    + rewrite list_lookup_insert_ne in Hj by congruence.
      destruct (Hinit j c Hj) as [(x0 & y0 & [E | Hin] & Hj') | Hu].
      * injection E as <- <-. contradiction.
      * left. now exists x0, y0.
      * now right.
Qed.

(** A schedule that arranges the index space reaches every cell of the
    frame. *)
Lemma schedule_covers schedule j :
  Permutation schedule (index_space width height) ->
  (j < width * height)%nat -> covered schedule j.
Proof.
  intros HP Hj.
  assert (Hw : (0 < width)%nat) by nia.
  exists (j mod width)%nat, (j / width)%nat. split.
  - apply (Permutation_in _ (Permutation_sym HP)).
    apply index_space_In. split.
    + apply Nat.mod_upper_bound. lia.
    + apply Nat.Div0.div_lt_upper_bound. nia.
  - rewrite (Nat.div_mod_eq j width) at 1. lia.
Qed.
End RenderFacts.

(** X13.  Whatever order the work items of [render] run in, the frame
    it leaves has [width * height] cells and does not depend on what the
    buffer held before: every cell is overwritten.  The generator ends
    in the same state too. *)
Theorem render_overwrites_frame
    (rng hitable : Type) (Hs : Hitable hitable)
    (scatter_material :
       hit_record -> ray -> vec3 -> ray -> Rand rng (bool * vec3 * ray))
    (uninit_rec : hit_record) (uninit_ray : ray)
    (random_double : Rand rng R) (random_in_unit_disk : Rand rng vec3)
    (width height samples num_spheres : nat)
    (schedule : list (nat * nat)) (fb_data fb_data' : list vec3)
    (spheres : list hitable) (g : rng) :
  Permutation schedule (index_space width height) ->
  (TileX | width)%nat -> (TileY | height)%nat ->
  (num_spheres <= length spheres)%nat ->
  length fb_data = (width * height)%nat ->
  length fb_data' = (width * height)%nat ->
  length (fst (render scatter_material uninit_rec uninit_ray random_double
                 random_in_unit_disk width height samples num_spheres
                 schedule fb_data spheres g)) = (width * height)%nat
  /\ render scatter_material uninit_rec uninit_ray random_double
       random_in_unit_disk width height samples num_spheres
       schedule fb_data spheres g
     = render scatter_material uninit_rec uninit_ray random_double
         random_in_unit_disk width height samples num_spheres
         schedule fb_data' spheres g.
Proof.
  intros HP _ _ _ Hlen Hlen'. unfold render. split.
  - rewrite run_items_length. exact Hlen.
  - apply run_items_overwrites; [congruence|].
    intros j. destruct (Nat.lt_ge_cases j (width * height)%nat) as [Hj|Hj].
    + left. now apply (schedule_covers width height schedule).
    + right. rewrite !lookup_ge_None_2 by lia. reflexivity.
Qed.

(** X14.  With at least one sample per pixel and a [scatter_material]
    that keeps attenuations within [[0, 1]], every cell of the frame
    [render] leaves holds a colour with components in [[0, 1]], in
    whatever order the work items run. *)
Theorem render_frame_in_unit_cube
    (rng hitable : Type) (Hs : Hitable hitable)
    (scatter_material :
       hit_record -> ray -> vec3 -> ray -> Rand rng (bool * vec3 * ray))
    (uninit_rec : hit_record) (uninit_ray : ray)
    (random_double : Rand rng R) (random_in_unit_disk : Rand rng vec3)
    (width height samples num_spheres : nat)
    (schedule : list (nat * nat)) (fb_data : list vec3)
    (spheres : list hitable) (g : rng) :
  Permutation schedule (index_space width height) ->
  (TileX | width)%nat -> (TileY | height)%nat ->
  (num_spheres <= length spheres)%nat ->
  length fb_data = (width * height)%nat ->
  (0 < samples)%nat ->
  (forall rec r' a' sc' g', unit_color a' ->
     unit_color (snd (fst (fst (scatter_material rec r' a' sc' g'))))) ->
  Forall unit_color
    (fst (render scatter_material uninit_rec uninit_ray random_double
            random_in_unit_disk width height samples num_spheres
            schedule fb_data spheres g)).
Proof.
  intros HP _ _ _ Hlen Hs0 Hmat. unfold render.
  apply run_items_unit_color; [exact Hs0 | exact Hmat |].
  intros j c Hj. left.
  apply (schedule_covers width height schedule); [exact HP|].
  apply lookup_lt_Some in Hj. lia.
Qed.

(** ** The scene of [main] *)

Lemma firstn_In {A : Type} (a : A) (n : nat) (l : list A) :
  In a (firstn n l) -> In a l.
Proof.
  revert n. induction l as [|b l IH]; intros [|n]; simpl; try tauto.
  intros [->|Hin]; [now left | right; eauto].
Qed.

Lemma grid_length : length grid = 484%nat.
Proof. reflexivity. Qed.

Section SceneFacts.
Context {rng : Type}.
Variable random_double : Rand rng R.
Variable random_double_range : R -> R -> Rand rng R.
Variable randomvec3 : Rand rng vec3.
Variable randomvec3_range : R -> R -> Rand rng vec3.
Variable x_first : bool.

Local Abbreviation cell :=
  (place_cell random_double random_double_range randomvec3 randomvec3_range
              x_first).
Local Abbreviation cells_ :=
  (place_cells random_double random_double_range randomvec3 randomvec3_range
               x_first).

(** A cell appends at most one sphere, a small one. *)
Lemma place_cell_appends a b spheres g :
  exists new, fst (cell a b spheres g) = spheres ++ new
    /\ (length new <= 1)%nat /\ Forall small_sphere new.
Proof.
  unfold place_cell, bind, ret.
  destruct (random_double g) as [choose_mat g1].
  destruct (random_double g1) as [d1 g2].
  destruct (random_double g2) as [d2 g3].
  set (center := if x_first
                 then mk_vec3 (IZR a + 9/10 * d1) (2/10) (IZR b + 9/10 * d2)
                 else mk_vec3 (IZR a + 9/10 * d2) (2/10) (IZR b + 9/10 * d1)).
  assert (Hy : y center = 2/10) by (unfold center; destruct x_first; reflexivity).
  destruct (Rlt_dec (9/10) (length3 (center - mk_vec3 4 (2/10) 0)%V))
    as [Hfar|Hnear].
  - destruct (Rlt_dec choose_mat (8/10)).
    + destruct (randomvec3 g3) as [v1 g4]. destruct (randomvec3 g4) as [v2 g5].
      eexists [_]. split; [reflexivity|]. split; [simpl; lia|].
      constructor; [|constructor].
      split; [reflexivity|]. split; [exact Hy|]. split; [exact Hfar|].
      left. now exists center, (v1 * v2)%V.
    + destruct (Rlt_dec choose_mat (95/100)).
      * destruct (randomvec3_range (1/2) 1 g3) as [albedo g4].
        destruct (random_double_range 0 (1/2) g4) as [fuzz g5].
        eexists [_]. split; [reflexivity|]. split; [simpl; lia|].
        constructor; [|constructor].
        split; [reflexivity|]. split; [exact Hy|]. split; [exact Hfar|].
        right. now exists center, albedo, fuzz.
      * exists []. split; [now rewrite app_nil_r|].
        split; [simpl; lia | constructor].
  - exists []. split; [now rewrite app_nil_r|].
    split; [simpl; lia | constructor].
Qed.

Lemma place_cells_appends cs : forall spheres g,
  exists new, fst (cells_ cs spheres g) = spheres ++ new
    /\ (length new <= length cs)%nat /\ Forall small_sphere new.
Proof.
  induction cs as [|[a b] rest IH]; intros spheres g.
  - exists []. split; [now rewrite app_nil_r|].
    split; [simpl; lia | constructor].
  - cbn [place_cells]. unfold bind.
    destruct (place_cell_appends a b spheres g) as (n1 & E1 & L1 & F1).
    destruct (cell a b spheres g) as [s1 g1]. simpl in E1. subst s1.
    destruct (IH (spheres ++ n1) g1) as (n2 & E2 & L2 & F2).
    exists (n1 ++ n2). split; [now rewrite E2, app_assoc|].
    split; [rewrite length_app; simpl; lia | now apply Forall_app].
Qed.

Lemma main_scene_shape g :
  exists smalls,
    fst (main_scene random_double random_double_range randomvec3
                    randomvec3_range x_first g)
    = ground_sphere :: smalls
      ++ [big_metal_sphere; big_image_sphere; last_image_sphere]
    /\ (length smalls <= 484)%nat
    /\ Forall small_sphere smalls.
Proof.
  unfold main_scene, bind, ret.
  destruct (place_cells_appends grid [ground_sphere] g) as (new & E & L & F).
  destruct (cells_ grid [ground_sphere] g) as [s g1]. simpl in E. subst s.
  exists new. split.
  - simpl. rewrite <- !app_assoc. reflexivity.
  - split; [now rewrite grid_length in L | exact F].
Qed.
End SceneFacts.

Lemma small_sphere_clear (s : sphere_args) :
  small_sphere s ->
  (1 + 2/10) * (1 + 2/10)
  < dot (args_center s - mk_vec3 4 1 0)%V (args_center s - mk_vec3 4 1 0)%V.
Proof.
  intros (_ & Hy & Hfar & _). unfold length3 in Hfar.
  set (v := (args_center s - mk_vec3 4 (2/10) 0)%V) in *.
  assert (Hd : 81/100 < dot v v).
  { pose proof (dot_self_nonneg v) as H0.
    pose proof (sqrt_sqrt (dot v v) H0) as Hsq.
    pose proof (sqrt_pos (dot v v)). nra. }
  unfold v, dot in *. simpl in *. rewrite Hy in *. nra.
Qed.

(** X15.  Whatever the random helpers return, the vector [main] builds
    is the ground sphere, then at most 484 small spheres (radius [0.2],
    centre at height [0.2] and farther than [0.9] from [(4, 0.2, 0)],
    Lambertian with a colour or metal with a fuzz), then the three large
    spheres: between 4 and 488 spheres in all. *)
Theorem main_scene_structure
    (rng : Type) (random_double : Rand rng R)
    (random_double_range : R -> R -> Rand rng R)
    (randomvec3 : Rand rng vec3) (randomvec3_range : R -> R -> Rand rng vec3)
    (x_first : bool) (g : rng) :
  exists smalls,
    fst (main_scene random_double random_double_range randomvec3
                    randomvec3_range x_first g)
    = ground_sphere :: smalls
      ++ [big_metal_sphere; big_image_sphere; last_image_sphere]
    /\ (length smalls <= 484)%nat
    /\ Forall small_sphere smalls
    /\ (4 <= length (fst (main_scene random_double random_double_range
                            randomvec3 randomvec3_range x_first g))
        <= 488)%nat.
Proof.
  destruct (main_scene_shape random_double random_double_range randomvec3
              randomvec3_range x_first g) as (smalls & E & L & F).
  exists smalls. split; [exact E|]. split; [exact L|]. split; [exact F|].
  rewrite E. simpl. rewrite length_app. simpl. lia.
Qed.

(** X16.  No small sphere of the scene reaches the large sphere at
    [(4, 1, 0)]: the centres of every sphere of radius [0.2] and of that
    sphere are farther apart than the sum [1 + 0.2] of the radii.  This
    is what the test against [(4, 0.2, 0)] in the loop achieves. *)
Theorem small_spheres_clear_of_centre_sphere
    (rng : Type) (random_double : Rand rng R)
    (random_double_range : R -> R -> Rand rng R)
    (randomvec3 : Rand rng vec3) (randomvec3_range : R -> R -> Rand rng vec3)
    (x_first : bool) (g : rng) :
  Forall (fun s =>
            args_radius s = 2/10 ->
            (1 + 2/10) * (1 + 2/10)
            < dot (args_center s - mk_vec3 4 1 0)%V
                  (args_center s - mk_vec3 4 1 0)%V)
         (fst (main_scene random_double random_double_range randomvec3
                          randomvec3_range x_first g)).
Proof.
  destruct (main_scene_shape random_double random_double_range randomvec3
              randomvec3_range x_first g) as (smalls & E & _ & F).
  rewrite E. constructor; [simpl; intros; lra|].
  apply Forall_app. split.
  - apply Forall_forall. intros s Hs _. apply small_sphere_clear.
    rewrite Forall_forall in F. now apply F.
  - repeat constructor; simpl; intros; lra.
Qed.

(** X17.  When [main]'s vector holds more spheres than the
    [num_spheres = 460] it passes to [render], the last sphere it added,
    the one at [(-4, 1, 0)], is not among the 460 spheres the kernel
    scans. *)
Theorem scene_overflows_kernel_array
    (rng : Type) (random_double : Rand rng R)
    (random_double_range : R -> R -> Rand rng R)
    (randomvec3 : Rand rng vec3) (randomvec3_range : R -> R -> Rand rng vec3)
    (x_first : bool) (g : rng) :
  (main_num_spheres
   < length (fst (main_scene random_double random_double_range randomvec3
                             randomvec3_range x_first g)))%nat ->
  ~ In last_image_sphere
       (firstn main_num_spheres
          (fst (main_scene random_double random_double_range randomvec3
                           randomvec3_range x_first g))).
Proof.
  destruct (main_scene_shape random_double random_double_range randomvec3
              randomvec3_range x_first g) as (smalls & E & _ & F).
  rewrite E. intros Hlen Hin.
  change (ground_sphere :: smalls
          ++ [big_metal_sphere; big_image_sphere; last_image_sphere])
    with ((ground_sphere :: smalls)
          ++ [big_metal_sphere; big_image_sphere; last_image_sphere]) in *.
  replace ((ground_sphere :: smalls)
           ++ [big_metal_sphere; big_image_sphere; last_image_sphere])
    with (((ground_sphere :: smalls)
           ++ [big_metal_sphere; big_image_sphere]) ++ [last_image_sphere])
    in * by (rewrite <- app_assoc; reflexivity).
  rewrite length_app in Hlen. simpl length in Hlen.
  rewrite firstn_app in Hin.
  replace (main_num_spheres
           - length ((ground_sphere :: smalls)
                     ++ [big_metal_sphere; big_image_sphere]))%nat
    with 0%nat in Hin by (simpl length in *; lia).
  rewrite firstn_O, app_nil_r in Hin. apply firstn_In in Hin.
  apply in_app_or in Hin. destruct Hin as [[Hg | Hs] | [Hb | [Hb | []]]].
  - unfold ground_sphere, last_image_sphere in Hg. injection Hg as _ _ Hr _.
    lra.
  - rewrite Forall_forall in F. apply list_elem_of_In, F in Hs.
    destruct Hs as (Hr & _). simpl in Hr. lra.
  - discriminate Hb.
  - unfold big_image_sphere, last_image_sphere in Hb. injection Hb as Hx.
    lra.
Qed.

(** *** The scene for helpers that always return zero *)

Lemma integer_cell_far (a b : Z) :
  is_hole (a, b) = false ->
  9/10 < length3 (mk_vec3 (IZR a + 9/10 * 0) (2/10) (IZR b + 9/10 * 0)
                  - mk_vec3 4 (2/10) 0)%V.
Proof.
  intros Hh. unfold is_hole in Hh. simpl in Hh.
  assert (Hz : (1 <= (a - 4) * (a - 4) + b * b)%Z).
  { apply andb_false_iff in Hh. destruct Hh as [Hh|Hh];
      apply Z.eqb_neq in Hh.
    - pose proof (Z.square_nonneg b) as Hb.
      assert (1 <= (a - 4) * (a - 4))%Z; [|lia].
      generalize (a - 4)%Z, (ltac:(lia) : (a - 4 <> 0)%Z). intros u Hu.
      assert (u <= -1 \/ 1 <= u)%Z as [Hn|Hp] by lia; nia.
    - pose proof (Z.square_nonneg (a - 4)) as Ha.
      assert (1 <= b * b)%Z; [|lia].
      assert (b <= -1 \/ 1 <= b)%Z as [Hn|Hp] by lia; nia. }
  apply IZR_le in Hz. rewrite plus_IZR, !mult_IZR, minus_IZR in Hz.
  unfold length3, dot. simpl.
  apply (Rlt_le_trans _ (sqrt 1)); [rewrite sqrt_1; lra|].
  apply sqrt_le_1_alt. nra.
Qed.

Lemma integer_cell_hole (a b : Z) :
  is_hole (a, b) = true ->
  ~ 9/10 < length3 (mk_vec3 (IZR a + 9/10 * 0) (2/10) (IZR b + 9/10 * 0)
                    - mk_vec3 4 (2/10) 0)%V.
Proof.
  intros Hh. unfold is_hole in Hh. simpl in Hh.
  apply andb_true_iff in Hh. destruct Hh as [Ha Hb].
  apply Z.eqb_eq in Ha, Hb. subst. unfold length3, dot. simpl.
  replace ((4 + 9 / 10 * 0 - 4) * (4 + 9 / 10 * 0 - 4)
           + (2 / 10 - 2 / 10) * (2 / 10 - 2 / 10)
           + (0 + 9 / 10 * 0 - 0) * (0 + 9 / 10 * 0 - 0)) with 0 by lra.
  rewrite sqrt_0. lra.
Qed.

Lemma place_cell_zero_length (x_first : bool) (a b : Z)
    (spheres : list sphere_args) :
  length (fst (place_cell zero_jitter zero_range zero_vec zero_vec_range
                 x_first a b spheres tt))
  = (length spheres + if is_hole (a, b) then 0 else 1)%nat.
Proof.
  unfold place_cell, bind, ret, zero_jitter, ret.
  replace (if x_first
           then mk_vec3 (IZR a + 9/10 * 0) (2/10) (IZR b + 9/10 * 0)
           else mk_vec3 (IZR a + 9/10 * 0) (2/10) (IZR b + 9/10 * 0))
    with (mk_vec3 (IZR a + 9/10 * 0) (2/10) (IZR b + 9/10 * 0))
    by (destruct x_first; reflexivity).
  destruct (is_hole (a, b)) eqn:Hh.
  - destruct (Rlt_dec _ _) as [Hfar|_].
    + now apply integer_cell_hole in Hfar.
    + simpl. lia.
  - destruct (Rlt_dec (9/10) _) as [_|Hnear].
    + destruct (Rlt_dec 0 (8/10)); [|lra].
      simpl. rewrite length_app. simpl. lia.
    + exfalso. apply Hnear. now apply integer_cell_far.
Qed.

Lemma place_cells_zero_length (x_first : bool) (cs : list (Z * Z)) :
  forall spheres,
  length (fst (place_cells zero_jitter zero_range zero_vec zero_vec_range
                 x_first cs spheres tt))
  = (length spheres + length (List.filter (fun c => negb (is_hole c)) cs))%nat.
Proof.
  induction cs as [|[a b] rest IH]; intros spheres; [simpl; lia|].
  cbn [place_cells]. unfold bind.
  pose proof (place_cell_zero_length x_first a b spheres) as Hc.
  destruct (place_cell _ _ _ _ x_first a b spheres tt) as [s1 []].
  rewrite IH. simpl in Hc. rewrite Hc.
  cbn [List.filter]. destruct (is_hole (a, b)); simpl; lia.
Qed.

Lemma main_scene_zero_length (x_first : bool) :
  length (fst (main_scene zero_jitter zero_range zero_vec zero_vec_range
                 x_first tt)) = 487%nat.
Proof.
  unfold main_scene, bind, ret.
  pose proof (place_cells_zero_length x_first grid [ground_sphere]) as Hc.
  destruct (place_cells _ _ _ _ x_first grid [ground_sphere] tt) as [s []].
  cbn [fst] in *. rewrite !length_app, Hc. reflexivity.
Qed.

Lemma scene_overflows_kernel_array_witness :
  (main_num_spheres
   < length (fst (main_scene zero_jitter zero_range zero_vec zero_vec_range
                    true tt)))%nat
  /\ ~ In last_image_sphere
         (firstn main_num_spheres
            (fst (main_scene zero_jitter zero_range zero_vec zero_vec_range
                    true tt))).
Proof.
  assert (Hlen : (main_num_spheres
                  < length (fst (main_scene zero_jitter zero_range zero_vec
                                   zero_vec_range true tt)))%nat).
  { rewrite main_scene_zero_length. unfold main_num_spheres. lia. }
  split; [exact Hlen|].
  apply (scene_overflows_kernel_array unit zero_jitter zero_range zero_vec
           zero_vec_range true tt Hlen).
Defined.

Lemma render_overwrites_frame_witness :
  @render unit sphere sphere_hit half_material blank_record down_ray
     zero_jitter centre_disk 8 8 1 2 (index_space 8 8) (repeat black 64)
     [far_sphere; near_sphere] tt
  = @render unit sphere sphere_hit half_material blank_record down_ray
      zero_jitter centre_disk 8 8 1 2 (index_space 8 8) (repeat white 64)
      [far_sphere; near_sphere] tt.
Proof.
  apply (render_overwrites_frame unit sphere sphere_hit half_material
           blank_record down_ray zero_jitter centre_disk 8 8 1 2
           (index_space 8 8) (repeat black 64) (repeat white 64)
           [far_sphere; near_sphere] tt).
  - apply Permutation_refl.
  - apply Nat.divide_refl.
  - apply Nat.divide_refl.
  - simpl. lia.
  - reflexivity.
  - reflexivity.
Defined.

Lemma render_frame_in_unit_cube_witness :
  Forall unit_color
    (fst (@render unit sphere sphere_hit half_material blank_record down_ray
            zero_jitter centre_disk 8 8 1 2 (index_space 8 8)
            (repeat (mk_vec3 7 7 7) 64) [far_sphere; near_sphere] tt)).
Proof.
  apply (render_frame_in_unit_cube unit sphere sphere_hit half_material
           blank_record down_ray zero_jitter centre_disk 8 8 1 2
           (index_space 8 8) (repeat (mk_vec3 7 7 7) 64)
           [far_sphere; near_sphere] tt).
  - apply Permutation_refl.
  - apply Nat.divide_refl.
  - apply Nat.divide_refl.
  - simpl. lia.
  - reflexivity.
  - lia.
  - intros rec r' a' sc' g'. apply half_material_unit_color.
Defined.

(** ** Where the light comes from *)

Lemma color_loop_not_black
    {rng hitable : Type} `{Hitable hitable}
    (scatter_material :
       hit_record -> ray -> vec3 -> ray -> Rand rng (bool * vec3 * ray))
    (uninit_rec : hit_record) (spheres : list hitable) n :
  forall r a sc g,
  fst (color_loop scatter_material uninit_rec spheres n r a sc g)
    <> mk_vec3 0 0 0 ->
  escapes scatter_material uninit_rec spheres n r a sc g.
Proof.
  induction n as [|n IH]; intros r a sc g Hnb; [now apply Hnb|].
  destruct (hit_world uninit_rec r (1/1000) infinity uninit_rec spheres)
    as [[|] rec] eqn:Hs.
  - destruct (scatter_material rec r a sc g) as [[[[|] a'] s] g'] eqn:Hsc.
    + rewrite (color_loop_scattered _ _ _ _ _ _ _ _ _ _ _ _ Hs Hsc) in Hnb.
      right. rewrite Hs. exists rec, a', s, g'.
      split; [reflexivity|]. split; [exact Hsc | now apply IH].
    + rewrite (color_loop_absorbed _ _ _ _ _ _ _ _ _ _ _ _ Hs Hsc) in Hnb.
      now contradiction Hnb.
  - left. now rewrite Hs.
Qed.

(** X18.  [color] returns a colour other than black only for a path that
    reaches the background within [max_depth] iterations: a path that is
    absorbed or runs out of iterations contributes nothing, and no
    surface emits light. *)
Theorem light_comes_from_background
    (rng hitable : Type) (Hs : Hitable hitable)
    (scatter_material :
       hit_record -> ray -> vec3 -> ray -> Rand rng (bool * vec3 * ray))
    (uninit_rec : hit_record) (uninit_ray : ray)
    (spheres : list hitable) (r : ray) (D : Z) (g : rng) :
  fst (color scatter_material uninit_rec uninit_ray r spheres D g)
    <> mk_vec3 0 0 0 ->
  escapes scatter_material uninit_rec spheres (Z.to_nat D) r
          (mk_vec3 1 1 1) uninit_ray g.
Proof. unfold color. apply color_loop_not_black. Qed.

Lemma light_comes_from_background_witness :
  fst (@color unit sphere sphere_hit half_material blank_record up_ray
         up_ray [far_sphere; near_sphere] 1 tt) <> mk_vec3 0 0 0
  /\ @escapes unit sphere sphere_hit half_material blank_record
       [far_sphere; near_sphere] (Z.to_nat 1) up_ray (mk_vec3 1 1 1)
       up_ray tt.
Proof.
  assert (Hnb : fst (@color unit sphere sphere_hit half_material
                       blank_record up_ray up_ray
                       [far_sphere; near_sphere] 1 tt) <> mk_vec3 0 0 0).
  { unfold color. change (Z.to_nat 1) with 1%nat.
    rewrite color_loop_escaped.
    - unfold background, up_ray. cbn [direction].
      rewrite (unit_vector_up 1) by lra. rewrite gradient_top.
      simpl. intros E. injection E as E _ _. lra.
    - pose proof scan_two_spheres_miss as Hmiss.
      unfold sphere_hit_world in Hmiss. now rewrite Hmiss. }
  split; [exact Hnb|].
  apply (light_comes_from_background unit sphere sphere_hit half_material
           blank_record up_ray [far_sphere; near_sphere] up_ray 1 tt Hnb).
Defined.

(** X19.  The direction of the ray [get_ray] returns is never the zero
    vector, whatever [s], [t] and the lens sample: its component along
    the viewing axis [w] is [-10], so its length is at least [10] and
    normalising it divides by a non-zero length. *)
Theorem get_ray_direction_not_zero
    (rng : Type) (rd : Rand rng vec3) (s t : R) (g : rng) :
  dot (direction (fst (get_ray rd s t g))) camera_w = -10
  /\ 100 <= dot (direction (fst (get_ray rd s t g)))
                (direction (fst (get_ray rd s t g)))
  /\ length3 (direction (fst (get_ray rd s t g))) <> 0.
Proof.
  set (d := direction (fst (get_ray rd s t g))).
  assert (Hdw : dot d camera_w = -10).
  { unfold d. rewrite get_ray_frame. cbv zeta. cbn [fst direction].
    set (a := 1/10/2 * x (fst (rd g))). set (b := 1/10/2 * y (fst (rd g))).
    replace (dot _ camera_w)
      with (- 10 * dot camera_w camera_w
            + ((s - 1/2) * (10 * viewport_width) - a) * dot camera_u camera_w
            + ((t - 1/2) * (10 * viewport_height) - b)
              * dot camera_v camera_w).
    - rewrite camera_w_unit, camera_u_w, camera_v_w. ring.
    - unfold a, b.
      generalize (fst (rd g)) look_from camera_u camera_v camera_w
                 viewport_width viewport_height.
      intros l e u v w vw vh. unfold dot. simpl. field. }
  assert (Hdd : 100 <= dot d d).
  { pose proof (dot_self_nonneg (d + 10 *^ camera_w)%V) as Hsq.
    replace (dot (d + 10 *^ camera_w)%V (d + 10 *^ camera_w)%V)
      with (dot d d + 20 * dot d camera_w + 100 * dot camera_w camera_w)
      in Hsq
      by (generalize d camera_w; intros u w; unfold dot; simpl; ring).
    rewrite Hdw, camera_w_unit in Hsq. lra. }
  split; [exact Hdw|]. split; [exact Hdd|].
  unfold length3. intros E.
  assert (Hpos : 0 < sqrt (dot d d)) by (apply sqrt_lt_R0; lra).
  lra.
Qed.
